(** * star-t: the commit-message convention check of [dangerfile.js]

    A shallow embedding of [commitLint] and of the glue that feeds a pull
    request's commits through it.  JavaScript strings are sequences of
    UTF-16 code units; the two regular expression literals of the source are
    terms of a small regular expression syntax, run by a backtracking matcher
    that keeps the priority order of the ECMAScript matcher, and
    [RegExp.prototype.test] is modelled with the [lastIndex] slot it reads
    and writes. *)

From Stdlib Require Import String Ascii DecimalString List Bool Arith NArith Lia.
Import ListNotations.

(** ** JavaScript values *)

Module Js.

(** A string is a list of UTF-16 code units. *)
Definition jsstring := list N.

(** The code units of a literal written with Latin-1 characters only. *)
Definition lit (s : string) : jsstring :=
  map N_of_ascii (list_ascii_of_string s).

Definition LF : N := 10.
Definition CR : N := 13.
Definition LS : N := 8232. (* U+2028 *)
Definition PS : N := 8233. (* U+2029 *)

(** [text [l0; l1; ...]] is [l0 + '\n' + l1 + '\n' + ...]. *)
Fixpoint text (ls : list string) : jsstring :=
  match ls with
  | [] => []
  | [l] => lit l
  | l :: rest => lit l ++ LF :: text rest
  end.

Fixpoint jsstring_eqb (a b : jsstring) : bool :=
  match a, b with
  | [], [] => true
  | x :: a', y :: b' => N.eqb x y && jsstring_eqb a' b'
  | _, _ => false
  end.

(** The values a commit's fields take: a string, or [null] / [undefined]
    when the field is absent. *)
Inductive jsval :=
| Undefined
| Null
| Str (s : jsstring).

Definition ToString (v : jsval) : jsstring :=
  match v with
  | Undefined => lit "undefined"
  | Null => lit "null"
  | Str s => s
  end.

Definition ToBoolean (v : jsval) : bool :=
  match v with
  | Str (_ :: _) => true
  | _ => false
  end.

(** [v !== s] for a string [s]. *)
Definition strict_neq (v : jsval) (s : jsstring) : bool :=
  match v with
  | Str t => negb (jsstring_eqb t s)
  | _ => true
  end.

(** [a[k]]: [undefined] out of range. *)
Definition index (a : list jsstring) (k : nat) : jsval :=
  match nth_error a k with
  | Some s => Str s
  | None => Undefined
  end.

(** [s.split(sep)] for a separator of one code unit. *)
Fixpoint split (sep : N) (s : jsstring) : list jsstring :=
  match s with
  | [] => [[]]
  | c :: t =>
      if N.eqb c sep then [] :: split sep t
      else match split sep t with
           | l :: ls => (c :: l) :: ls
           | [] => [[c]]
           end
  end.

(** [a.map(f)]: the callback receives the element, its index and the array. *)
Fixpoint map_from {A B} (f : A -> nat -> list A -> B) (whole : list A)
         (i : nat) (a : list A) : list B :=
  match a with
  | [] => []
  | x :: rest => f x i whole :: map_from f whole (S i) rest
  end.

Definition Array_map {A B} (f : A -> nat -> list A -> B) (a : list A) : list B :=
  map_from f a 0 a.

(** [a !== b] for two values. *)
Definition strict_neq_val (a b : jsval) : bool :=
  match a, b with
  | Undefined, Undefined => false
  | Null, Null => false
  | Str s, Str t => negb (jsstring_eqb s t)
  | _, _ => true
  end.

(** The decimal digits of an array length, as a template literal prints
    it. *)
Definition NumberToString (n : nat) : jsstring :=
  lit (NilEmpty.string_of_uint (Nat.to_uint n)).

(** An object as the script reads it: the names [Object.keys] lists, in
    that order, and the value a property read gives ([undefined] when there
    is none). *)
Record object := mkObject {
  keys : list jsstring;
  get : jsstring -> jsval
}.

End Js.

Import Js.

(** ** Regular expressions *)

Module RegExp.

(** Character classes are predicates on code units. *)
Definition class := N -> bool.

Definition between (lo hi : string) : class :=
  fun c =>
    match lit lo, lit hi with
    | [l], [h] => N.leb l c && N.leb c h
    | _, _ => false
    end.

Definition char (s : string) : class :=
  fun c => match lit s with [x] => N.eqb c x | _ => false end.

Definition union (p q : class) : class := fun c => p c || q c.
Definition negated (p : class) : class := fun c => negb (p c).

(** [\w], [\W] (no [i] or [u] flag) and [.] (no [s] flag). *)
Definition word : class :=
  union (between "a" "z") (union (between "A" "Z") (union (between "0" "9") (char "_"))).
Definition nonword : class := negated word.
Definition isLineTerminator : class :=
  fun c => N.eqb c LF || N.eqb c CR || N.eqb c LS || N.eqb c PS.
Definition dot : class := negated isLineTerminator.

Inductive regex :=
| Eps
| AssertStart                  (* ^ *)
| Lit (c : N)
| Class (p : class)
| Seq (r1 r2 : regex)
| Alt (r1 r2 : regex)
| Group (r : regex)            (* ( r ) *)
| Opt (r : regex)              (* r? *)
| Plus (r : regex).            (* r{1,} *)

(** A literal run of characters, and an alternation of several branches. *)
Definition chars (s : string) : regex :=
  fold_right (fun c r => Seq (Lit c) r) Eps (lit s).

Fixpoint alts (rs : list regex) : regex :=
  match rs with
  | [] => Eps
  | [r] => r
  | r :: rest => Alt r (alts rest)
  end.

Fixpoint seqs (rs : list regex) : regex :=
  match rs with
  | [] => Eps
  | [r] => r
  | r :: rest => Seq r (seqs rest)
  end.

(** A matcher state: the index reached in the input and what is left of it. *)
Definition state := (nat * jsstring)%type.

Definition advanced (x y : state) : bool := fst x <? fst y.

(** The greedy loop of [r{1,}]: after each iteration, first try one more,
    then stop.  An iteration after the first that consumes nothing is
    abandoned, as in the RepeatMatcher of ECMAScript. *)
Fixpoint iter (m : state -> list state) (fuel : nat) (x : state) : list state :=
  match fuel with
  | O => []
  | S fuel' =>
      flat_map
        (fun y => if advanced x y then iter m fuel' y ++ [y] else [])
        (m x)
  end.

(** All the ways [r] matches at state [x], in the order the backtracking
    matcher tries them: the head is the match JavaScript reports. *)
Fixpoint rmatch (r : regex) (x : state) : list state :=
  match r with
  | Eps => [x]
  | AssertStart => if fst x =? 0 then [x] else []
  | Lit c =>
      match snd x with
      | d :: t => if N.eqb d c then [(S (fst x), t)] else []
      | [] => []
      end
  | Class p =>
      match snd x with
      | d :: t => if p d then [(S (fst x), t)] else []
      | [] => []
      end
  | Seq r1 r2 => flat_map (rmatch r2) (rmatch r1 x)
  | Alt r1 r2 => rmatch r1 x ++ rmatch r2 x
  | Group r1 => rmatch r1 x
  | Opt r1 => filter (advanced x) (rmatch r1 x) ++ [x]
  | Plus r1 =>
      flat_map
        (fun y => iter (rmatch r1) (length (snd y)) y ++ [y])
        (rmatch r1 x)
  end.

(** Try each start index from [i] on; the end index of the first match. *)
Fixpoint search (r : regex) (i : nat) (s : jsstring) : option nat :=
  match rmatch r (i, s) with
  | y :: _ => Some (fst y)
  | [] =>
      match s with
      | [] => None
      | _ :: t => search r (S i) t
      end
  end.

(** A RegExp object: its pattern, the [g] and [y] flags and [lastIndex]. *)
Record RegExp := mkRegExp {
  pattern : regex;
  global : bool;
  sticky : bool;
  lastIndex : nat
}.

(** Evaluating a literal [/pattern/] creates a fresh object. *)
Definition literal (r : regex) : RegExp := mkRegExp r false false 0.

Definition set_lastIndex (R : RegExp) (i : nat) : RegExp :=
  mkRegExp (pattern R) (global R) (sticky R) i.

(** RegExpBuiltinExec (ECMAScript 2017 and later): the end index of the
    match, and the object after.  [lastIndex] is read and written only under
    the [g] or [y] flag. *)
Definition exec (R : RegExp) (str : jsstring) : option nat * RegExp :=
  let flagged := global R || sticky R in
  let start := if flagged then lastIndex R else 0 in
  let failure := (None, if flagged then set_lastIndex R 0 else R) in
  if length str <? start then failure
  else
    let found :=
      if sticky R then
        match rmatch (pattern R) (start, skipn start str) with
        | y :: _ => Some (fst y)
        | [] => None
        end
      else search (pattern R) start (skipn start str) in
    match found with
    | Some e => (Some e, if flagged then set_lastIndex R e else R)
    | None => failure
    end.

(** [R.test(str)]. *)
Definition test (R : RegExp) (str : jsstring) : bool * RegExp :=
  match exec R str with
  | (Some _, R') => (true, R')
  | (None, R') => (false, R')
  end.

(** *** [String.prototype.replace] with a RegExp

    A match as [exec] reports it: the index where it starts and the index
    where it ends. *)
Definition span := (nat * nat)%type.

Fixpoint search_span (r : regex) (i : nat) (s : jsstring) : option span :=
  match rmatch r (i, s) with
  | y :: _ => Some (i, fst y)
  | [] =>
      match s with
      | [] => None
      | _ :: t => search_span r (S i) t
      end
  end.

(** RegExpBuiltinExec again, keeping the start of the match. *)
Definition exec_span (R : RegExp) (str : jsstring) : option span * RegExp :=
  let flagged := global R || sticky R in
  let start := if flagged then lastIndex R else 0 in
  let failure := (None, if flagged then set_lastIndex R 0 else R) in
  if length str <? start then failure
  else
    let found :=
      if sticky R then
        match rmatch (pattern R) (start, skipn start str) with
        | y :: _ => Some (start, fst y)
        | [] => None
        end
      else search_span (pattern R) start (skipn start str) in
    match found with
    | Some (b, e) => (Some (b, e), if flagged then set_lastIndex R e else R)
    | None => failure
    end.

(** The loop of RegExp.prototype[@@replace] that gathers the results: with
    the [g] flag it calls [exec] until it fails, stepping [lastIndex] over
    an empty match; without, it calls [exec] once. *)
Fixpoint matchAll (fuel : nat) (R : RegExp) (str : jsstring)
  : list span * RegExp :=
  match fuel with
  | O => ([], R)
  | S fuel' =>
      match exec_span R str with
      | (None, R') => ([], R')
      | (Some (b, e), R') =>
          if global R' then
            let R'' := if e =? b
                       then set_lastIndex R' (S (lastIndex R'))
                       else R' in
            let '(rest, Rend) := matchAll fuel' R'' str in
            ((b, e) :: rest, Rend)
          else ([(b, e)], R')
      end
  end.

(** The loop that builds the result: the text between the matches, and the
    replacement for each match. *)
Fixpoint substitute (str : jsstring) (results : list span)
         (replacement : jsstring) (nextSourcePosition : nat) : jsstring :=
  match results with
  | [] => skipn nextSourcePosition str
  | (position, e) :: rest =>
      if nextSourcePosition <=? position then
        firstn (position - nextSourcePosition) (skipn nextSourcePosition str)
        ++ replacement ++ substitute str rest replacement e
      else substitute str rest replacement nextSourcePosition
  end.

(** [str.replace(R, replacement)], for a replacement text without [$]
    patterns. *)
Definition replace (R : RegExp) (str replacement : jsstring)
  : jsstring * RegExp :=
  let R0 := if global R then set_lastIndex R 0 else R in
  let '(results, R') := matchAll (S (S (length str))) R0 str in
  (substitute str results replacement 0, R').

(** A literal [/pattern/g]. *)
Definition literal_g (r : regex) : RegExp := mkRegExp r true false 0.

End RegExp.

Import RegExp.

(** ** The commit-message check *)

Module Danger.

(** The simple objects [commitLint] receives: [{ sha, msg }]. *)
Record Commit := mkCommit {
  sha : jsval;
  msg : jsval
}.

(** The type tags of the first group of [headerRegex]. *)
Definition types : list string :=
  ["feat"; "fix"; "docs"; "style"; "refactor"; "perf"; "test"; "build";
   "ci"; "chore"; "revert"]%string.

(** [/^(feat|fix|docs|style|refactor|perf|test|build|ci|chore|revert)(\(.{1,}\))?: (.{1,})/] *)
Definition headerPattern : regex :=
  seqs [AssertStart;
        Group (alts (map chars types));
        Opt (Group (seqs [chars "("; Plus (Class dot); chars ")"]));
        chars ": ";
        Group (Plus (Class dot))].

(** [/([^\W\_]){1,}/] *)
Definition hasTextPattern : regex :=
  Plus (Group (Class (negated (union nonword (char "_"))))).

(** The strings [commitLint] builds from the commit's [sha]. *)
Definition commitIdentificator (sha : jsval) : jsstring :=
  lit "Commit " ++ ToString sha.

Definition errorMessage (sha : jsval) : jsstring :=
  commitIdentificator sha ++ lit " message does not comply with"
  ++ lit " the conventional-changelog-standard conventions.".

Definition noMessageError (sha : jsval) : jsstring :=
  commitIdentificator sha ++ lit " has no commit message".

Definition headerError (sha : jsval) : jsstring :=
  errorMessage sha ++ lit " Line #1 should be `<type>(<scope>): <subject>` or "
  ++ lit "`<type>: <subject>`.".

Definition blank2Error (sha : jsval) : jsstring :=
  errorMessage sha ++ lit " Line #2 should be `<blank line>`.".

Definition bodyError (sha : jsval) : jsstring :=
  errorMessage sha ++ lit " Line #3 should be `<body>` (with text).".

Definition blank4Error (sha : jsval) : jsstring :=
  errorMessage sha ++ lit " Line #4 should be `<blank line>`.".

Definition footerError (sha : jsval) : jsstring :=
  errorMessage sha ++ lit " Line #3 should be `<footer>` with text.".

(** [guard && !R.test(v)]: the regular expression runs only when the guard
    holds. *)
Definition guarded_no_match (guard : bool) (R : RegExp) (v : jsval)
  : bool * RegExp :=
  if guard then
    let '(found, R') := test R (ToString v) in (negb found, R')
  else (false, R).

(** The body of [commitLint], over the two RegExp objects it binds; it
    returns the result ([None] for [undefined]) and the objects as the calls
    to [test] leave them. *)
Definition commitLint_with (headerRegex hasTextRegex : RegExp) (commit : Commit)
  : option jsstring * (RegExp * RegExp) :=
  let msg := msg commit in
  let sha := sha commit in
  if negb (ToBoolean msg) then
    (Some (noMessageError sha), (headerRegex, hasTextRegex))
  else
  (* past this point [msg] is a non-empty string: [ToString msg] is [msg] *)
  let '(headerOk, headerRegex) := test headerRegex (ToString msg) in
  if negb headerOk then
    (Some (headerError sha), (headerRegex, hasTextRegex))
  else
  let msgLines := split LF (ToString msg) in
  if (1 <? length msgLines) && strict_neq (index msgLines 1) [] then
    (Some (blank2Error sha), (headerRegex, hasTextRegex))
  else
  let '(noBody, hasTextRegex) :=
    guarded_no_match (2 <? length msgLines) hasTextRegex (index msgLines 2) in
  if noBody then
    (Some (bodyError sha), (headerRegex, hasTextRegex))
  else
  if (3 <? length msgLines) && strict_neq (index msgLines 3) [] then
    (Some (blank4Error sha), (headerRegex, hasTextRegex))
  else
  let '(noFooter, hasTextRegex) :=
    guarded_no_match (4 <? length msgLines) hasTextRegex (index msgLines 4) in
  if noFooter then
    (Some (footerError sha), (headerRegex, hasTextRegex))
  else
    (None, (headerRegex, hasTextRegex)).

(** The objects the two literals evaluate to. *)
Definition headerRegex : RegExp := literal headerPattern.
Definition hasTextRegex : RegExp := literal hasTextPattern.

(** [commitLint]: each call evaluates the two literals anew. *)
Definition commitLint (commit : Commit) : option jsstring :=
  fst (commitLint_with headerRegex hasTextRegex commit).

(** *** The glue around it *)

(** [string.replace(/@/g, '')] *)
Definition removeAtSymbols (str : jsstring) : jsstring :=
  fst (replace (literal_g (chars "@")) str []).

(** [removeAtSymbols(v)] on a value: reading [replace] off [undefined] or
    [null] throws a TypeError, here [None]. *)
Definition removeAtSymbols_call (v : jsval) : option jsstring :=
  match v with
  | Str s => Some (removeAtSymbols s)
  | _ => None
  end.

(** An element of [danger.github.commits]: [obj.sha] and
    [obj.commit.message]. *)
Record GitHubCommit := mkGitHubCommit {
  gh_sha : jsval;
  gh_commit_message : jsval
}.

Definition commits (github_commits : list GitHubCommit) : list Commit :=
  Array_map
    (fun obj _ _ => {| sha := gh_sha obj; msg := gh_commit_message obj |})
    github_commits.

Definition commitErrors (github_commits : list GitHubCommit)
  : list (option jsstring) :=
  Array_map (fun commit _ _ => commitLint commit) (commits github_commits).

(** What [fail] has been called with so far, oldest first. *)
Definition failures := list jsstring.

Definition fail (error : jsstring) (log : failures) : failures :=
  log ++ [error].

Definition defined (e : option jsstring) : bool :=
  match e with Some _ => true | None => false end.

(** [if (commitErrors.some(...)) { commitErrors.forEach(...) }] *)
Definition reportCommitErrors (github_commits : list GitHubCommit)
           (log : failures) : failures :=
  let commitErrors := commitErrors github_commits in
  if existsb defined commitErrors then
    fold_left
      (fun log error => if defined error
                        then match error with
                             | Some e => fail e log
                             | None => log
                             end
                        else log)
      commitErrors log
  else log.

(** *** The dependency reports *)

(** What [danger.git.JSONDiffForFile] gives for one key of the manifest. *)
Record JSONDiffValue := mkJSONDiffValue {
  before : object;
  after : object;
  added : list jsstring;
  removed : list jsstring
}.

(** The diff of [package.json]: a section is absent when the key did not
    change. *)
Record PackageDiff := mkPackageDiff {
  dependencies : option JSONDiffValue;
  devDependencies : option JSONDiffValue
}.

(** What [message] has been called with so far, oldest first. *)
Definition messages := list jsstring.

Definition message (text : jsstring) (log : messages) : messages :=
  log ++ [text].

(** The loop all six reports share:
    [let dependenciesString;
     names.forEach(name => {
       if (!dependenciesString) dependenciesString = name;
       else dependenciesString = `${dependenciesString}, ${name}`; })] *)
Definition dependenciesString (names : list jsstring) : jsval :=
  fold_left
    (fun dependenciesString newDependency =>
       if negb (ToBoolean dependenciesString) then Str newDependency
       else Str (ToString dependenciesString ++ lit ", " ++ newDependency))
    names Undefined.

(** [if (packageDiff && packageDiff.<section>) { ... }]; [None] is an
    exception thrown by the body. *)
Definition whenChanged (packageDiff : option PackageDiff)
           (section : PackageDiff -> option JSONDiffValue)
           (body : JSONDiffValue -> messages -> option messages)
           (log : messages) : option messages :=
  match packageDiff with
  | Some diff =>
      match section diff with
      | Some changes => body changes log
      | None => Some log
      end
  | None => Some log
  end.

(** [message(`...${removeAtSymbols(names)}.`)] *)
Definition report (opening : jsstring) (names : jsval) (log : messages)
  : option messages :=
  match removeAtSymbols_call names with
  | Some text => Some (message (opening ++ text ++ lit ".") log)
  | None => None
  end.

(** Checks for new dependencies. *)
Definition checkNewDependencies (packageDiff : option PackageDiff)
  : messages -> option messages :=
  whenChanged packageDiff dependencies (fun changes log =>
    let newDependencies := added changes in
    let newCount := length newDependencies in
    if 0 <? newCount then
      report
        (lit "There " ++ (if newCount =? 1 then lit "is" else lit "are")
         ++ lit " " ++ NumberToString newCount ++ lit " new "
         ++ (if newCount =? 1 then lit "dependency" else lit "dependencies")
         ++ lit " added in this PR: ")
        (dependenciesString newDependencies) log
    else Some log).

(** Checks for removed dependencies. *)
Definition checkRemovedDependencies (packageDiff : option PackageDiff)
  : messages -> option messages :=
  whenChanged packageDiff dependencies (fun changes log =>
    let removedDependencies := removed changes in
    if 0 <? length removedDependencies then
      report
        (lit "There is " ++ NumberToString (length removedDependencies)
         ++ lit " removed "
         ++ (if length removedDependencies =? 1
             then lit "dependency" else lit "dependencies")
         ++ lit " in this PR: ")
        (dependenciesString removedDependencies) log
    else Some log).

(** [Object.keys(after).forEach(dependency => { ... push(...) })]: the
    entries of the dependencies whose version changed. *)
Definition updatedDependencies (changes : JSONDiffValue) : list jsstring :=
  fold_left
    (fun updatedDependencies dependency =>
       let versionBefore := get (before changes) dependency in
       let versionAfter := get (after changes) dependency in
       if ToBoolean versionBefore && strict_neq_val versionAfter versionBefore
       then updatedDependencies
            ++ [dependency ++ lit " (from <b>" ++ ToString versionBefore
                ++ lit "</b> to <b>" ++ ToString versionAfter ++ lit "</b>)"]
       else updatedDependencies)
    (keys (after changes)) [].

(** Checks for updated dependencies. *)
Definition checkUpdatedDependencies (packageDiff : option PackageDiff)
  : messages -> option messages :=
  whenChanged packageDiff dependencies (fun changes log =>
    let updatedDependencies := updatedDependencies changes in
    if 0 <? length updatedDependencies then
      report
        (lit "The version of " ++ NumberToString (length updatedDependencies)
         ++ lit " "
         ++ (if length updatedDependencies =? 1
             then lit "dependency" else lit "dependencies")
         ++ lit " have been updated in this PR: ")
        (dependenciesString updatedDependencies) log
    else Some log).

(** Checks for new devDependencies. *)
Definition checkNewDevDependencies (packageDiff : option PackageDiff)
  : messages -> option messages :=
  whenChanged packageDiff devDependencies (fun changes log =>
    let newDevDependencies := added changes in
    let newCount := length newDevDependencies in
    if 0 <? newCount then
      report
        (lit "There " ++ (if newCount =? 1 then lit "is" else lit "are")
         ++ lit " " ++ NumberToString newCount ++ lit " new dev"
         ++ (if newCount =? 1 then lit "Dependency" else lit "Dependencies")
         ++ lit " added in this PR: ")
        (dependenciesString newDevDependencies) log
    else Some log).

(** Checks for removed devDependencies. *)
Definition checkRemovedDevDependencies (packageDiff : option PackageDiff)
  : messages -> option messages :=
  whenChanged packageDiff devDependencies (fun changes log =>
    let removedDevDependencies := removed changes in
    let removedCount := length removedDevDependencies in
    if 0 <? removedCount then
      report
        (lit "There " ++ (if removedCount =? 1 then lit "is" else lit "are")
         ++ lit " " ++ NumberToString removedCount ++ lit " removed dev"
         ++ (if removedCount =? 1 then lit "Dependency" else lit "Dependencies")
         ++ lit " in this PR: ")
        (dependenciesString removedDevDependencies) log
    else Some log).

(** Checks for updated devDependencies. *)
Definition checkUpdatedDevDependencies (packageDiff : option PackageDiff)
  : messages -> option messages :=
  whenChanged packageDiff devDependencies (fun changes log =>
    let updatedDependencies := updatedDependencies changes in
    if 0 <? length updatedDependencies then
      report
        (lit "The version of " ++ NumberToString (length updatedDependencies)
         ++ lit " dev"
         ++ (if length updatedDependencies =? 1
             then lit "Dependency" else lit "Dependencies")
         ++ lit " have been updated in this PR: ")
        (dependenciesString updatedDependencies) log
    else Some log).

(** The six scheduled checks. *)
Definition scheduled : list (option PackageDiff -> messages -> option messages) :=
  [checkNewDependencies; checkRemovedDependencies; checkUpdatedDependencies;
   checkNewDevDependencies; checkRemovedDevDependencies;
   checkUpdatedDevDependencies].

End Danger.

Import Danger.

(** ** The greeting of the package *)

Module StarT.

(** [const start = name => `getting Start-t, ${name}!`] *)
Definition start (name : jsval) : jsstring :=
  lit "getting Start-t, " ++ ToString name ++ lit "!".

End StarT.

Import StarT.

(** ** Specification vocabulary *)

Module Spec.

(** *** The language of a regular expression

    [lang r i w]: [r] matches the word [w] when [w] starts at index [i] of
    the input. *)
Inductive Iter (P : nat -> jsstring -> Prop) : nat -> jsstring -> Prop :=
| IterDone i : Iter P i []
| IterStep i w1 w2 :
    P i w1 -> w1 <> [] -> Iter P (i + length w1) w2 -> Iter P i (w1 ++ w2).

Fixpoint lang (r : regex) (i : nat) (w : jsstring) : Prop :=
  match r with
  | Eps => w = []
  | AssertStart => i = 0 /\ w = []
  | Lit c => w = [c]
  | Class p => exists c, w = [c] /\ p c = true
  | Seq r1 r2 =>
      exists w1 w2, w = w1 ++ w2 /\ lang r1 i w1 /\ lang r2 (i + length w1) w2
  | Alt r1 r2 => lang r1 i w \/ lang r2 i w
  | Group r1 => lang r1 i w
  | Opt r1 => w = [] \/ (w <> [] /\ lang r1 i w)
  | Plus r1 =>
      exists w1 w2,
        w = w1 ++ w2 /\ lang r1 i w1 /\ Iter (lang r1) (i + length w1) w2
  end.

(** [s] has a match of [r]: some substring [w] of [s] is in its language. *)
Definition found (r : regex) (s : jsstring) : Prop :=
  exists pre w post, s = pre ++ w ++ post /\ lang r (length pre) w.

(** A RegExp object without the [g] and [y] flags. *)
Definition flagless (R : RegExp) : Prop :=
  global R = false /\ sticky R = false.

(** [/r/.test(s)] on a fresh literal. *)
Definition matches (r : regex) (s : jsstring) : bool :=
  fst (test (literal r) s).

(** [r] never consumes the code unit [c]. *)
Fixpoint avoids (c : N) (r : regex) : bool :=
  match r with
  | Eps | AssertStart => true
  | Lit d => negb (N.eqb d c)
  | Class p => negb (p c)
  | Seq r1 r2 | Alt r1 r2 => avoids c r1 && avoids c r2
  | Group r1 | Opt r1 | Plus r1 => avoids c r1
  end.

(** *** Characters *)

Definition isAlnum : class :=
  union (between "a" "z") (union (between "A" "Z") (between "0" "9")).

Definition isAlnumOrUnderscore : class := union isAlnum (char "_").

Definition hasAlnum (l : jsstring) : bool := existsb isAlnum l.

(** *** Lines of a commit message *)

Definition messageText (c : Commit) : jsstring :=
  match msg c with
  | Str s => s
  | _ => []
  end.

Definition lines (m : jsstring) : list jsstring := split LF m.

Definition line (k : nat) (m : jsstring) : jsstring := nth k (lines m) [].

Definition singleLine (m : jsstring) : Prop := length (lines m) = 1.

(** *** The header forms [<type>: <subject>] and [<type>(<scope>): <subject>]

    [ok] says which characters a scope may hold and a subject may start
    with. *)
Definition isType (t : jsstring) : Prop := In t (map lit types).

Inductive HeaderForm (ok : class) : jsstring -> Prop :=
| HeaderPlain t c subject :
    isType t -> ok c = true ->
    HeaderForm ok (t ++ lit ": " ++ c :: subject)
| HeaderScoped t scope c subject :
    isType t -> scope <> [] -> forallb ok scope = true -> ok c = true ->
    HeaderForm ok (t ++ lit "(" ++ scope ++ lit "): " ++ c :: subject).

Definition anyChar : class := fun _ => true.

(** The full conventional shape: header, blank line, body with text and,
    when present, a blank fourth line and a fifth line with footer text. *)
Definition conventional (ok : class) (m : jsstring) : Prop :=
  exists header body rest,
    lines m = header :: [] :: body :: rest /\
    HeaderForm ok header /\
    hasAlnum body = true /\
    (rest = [] \/ rest = [[]] \/
     exists footer more, rest = [] :: footer :: more /\ hasAlnum footer = true).

(** The text before the first [:] or [(]: where a type tag stands. *)
Fixpoint leadingTag (s : jsstring) : jsstring :=
  match s with
  | [] => []
  | c :: t => if char ":" c || char "(" c then [] else c :: leadingTag t
  end.

(** *** The six checks, as an ordered list of predicate and message *)

Inductive check :=
| NoMessage | HeaderFormat | Line2Blank | Line3Body | Line4Blank | FooterText.

Definition checks : list check :=
  [NoMessage; HeaderFormat; Line2Blank; Line3Body; Line4Blank; FooterText].

Definition rank (k : check) : nat :=
  match k with
  | NoMessage => 0
  | HeaderFormat => 1
  | Line2Blank => 2
  | Line3Body => 3
  | Line4Blank => 4
  | FooterText => 5
  end.

(** Each check on its own, whatever the other checks say. *)
Definition violated (k : check) (c : Commit) : bool :=
  let m := messageText c in
  match k with
  | NoMessage => negb (ToBoolean (msg c))
  | HeaderFormat => negb (matches headerPattern (line 0 m))
  | Line2Blank => (1 <? length (lines m)) && negb (jsstring_eqb (line 1 m) [])
  | Line3Body => (2 <? length (lines m)) && negb (hasAlnum (line 2 m))
  | Line4Blank => (3 <? length (lines m)) && negb (jsstring_eqb (line 3 m) [])
  | FooterText => (4 <? length (lines m)) && negb (hasAlnum (line 4 m))
  end.

Definition reason (k : check) (sha : jsval) : jsstring :=
  match k with
  | NoMessage => noMessageError sha
  | HeaderFormat => headerError sha
  | Line2Blank => blank2Error sha
  | Line3Body => bodyError sha
  | Line4Blank => blank4Error sha
  | FooterText => footerError sha
  end.

(** Evaluate the pairs in order until the first failure. *)
Definition firstViolation (c : Commit) : option check :=
  find (fun k => violated k c) checks.

Definition firstFailure (c : Commit) : option jsstring :=
  option_map (fun k => reason k (sha c)) (firstViolation c).

(** *** Replacing single characters

    Where the characters of class [p] stand in [t], a text that starts at
    index [k]. *)
Fixpoint occurrences (p : class) (k : nat) (t : jsstring) : list span :=
  match t with
  | [] => []
  | c :: t' =>
      if p c then (k, S k) :: occurrences p (S k) t'
      else occurrences p (S k) t'
  end.

(** Each character of class [p] replaced by [replacement]. *)
Definition replaceEach (p : class) (replacement s : jsstring) : jsstring :=
  flat_map (fun c => if p c then replacement else [c]) s.

(** A pattern that matches exactly one character of class [p]. *)
Definition singleChar (r : regex) (p : class) : Prop :=
  forall k t,
    rmatch r (k, t) =
    match t with
    | c :: t' => if p c then [(S k, t')] else []
    | [] => []
    end.

(** [hasAt s]: the text holds an [@]. *)
Definition hasAt (s : jsstring) : bool := existsb (char "@") s.

(** [names.join(sep)] *)
Fixpoint joinWith (sep : jsstring) (names : list jsstring) : jsstring :=
  match names with
  | [] => []
  | [name] => name
  | name :: rest => name ++ sep ++ joinWith sep rest
  end.

(** *** The results that are not [undefined] *)

Definition definedResults (results : list (option jsstring)) : list jsstring :=
  flat_map (fun e => match e with Some x => [x] | None => [] end) results.

Definition simpleObject (obj : GitHubCommit) : Commit :=
  {| sha := gh_sha obj; msg := gh_commit_message obj |}.

End Spec.

Import Spec.

(** Decide every condition of a cascade of [if]s. *)
Ltac case_conditions :=
  repeat match goal with
         | |- context [if ?b then _ else _] => destruct b
         end;
  reflexivity.

(** ** The matcher computes the language *)

Section Matcher.

Lemma cons_app_length (w : jsstring) (i : nat) :
  i < i + length w <-> w <> [].
Proof.
  destruct w; simpl; split; intros H; try lia; congruence.
Qed.

Section Loop.

Variable m : state -> list state.
Variable P : nat -> jsstring -> Prop.
Hypothesis m_spec :
  forall i s z,
    In z (m (i, s)) <->
    exists w, s = w ++ snd z /\ fst z = i + length w /\ P i w.

Lemma iter_spec :
  forall fuel i s z,
    length s <= fuel ->
    (In z (iter m fuel (i, s)) <->
     exists w, s = w ++ snd z /\ fst z = i + length w /\ w <> [] /\ Iter P i w).
Proof.
  induction fuel as [|fuel IH]; intros i s z Hlen; simpl.
  - split; [tauto|].
    intros (w & Hs & _ & Hne & _).
    destruct s; [|simpl in Hlen; lia].
    destruct w; [congruence|discriminate].
  - rewrite in_flat_map. split.
    + intros (y & Hy & Hz).
      apply m_spec in Hy. destruct Hy as (w1 & Hs & Hi & HP).
      unfold advanced in Hz. simpl in Hz.
      destruct (i <? fst y) eqn:E; [|contradiction].
      apply Nat.ltb_lt in E. rewrite Hi in E. apply cons_app_length in E.
      destruct y as [j s1]. simpl in Hs, Hi.
      apply in_app_or in Hz. destruct Hz as [Hz|[Hz|[]]].
      * apply IH in Hz.
        -- destruct Hz as (w2 & Hs1 & Hj & Hne & Hit).
           exists (w1 ++ w2). subst s s1 j. rewrite <- app_assoc.
           repeat split; trivial.
           ++ rewrite Hj, length_app. lia.
           ++ destruct w1; [congruence|discriminate].
           ++ now apply IterStep.
        -- subst s. rewrite length_app in Hlen.
           destruct w1; [congruence|simpl in Hlen; lia].
      * subst z. exists w1. simpl. repeat split; trivial.
        rewrite <- (app_nil_r w1). apply IterStep; trivial. apply IterDone.
    + intros (w & Hs & Hi & Hne & Hit).
      inversion Hit as [|i' w1 w2 HP Hne1 Hrest Hi' Hw]; [congruence|].
      subst i' w.
      exists (i + length w1, w2 ++ snd z). split.
      * apply m_spec. exists w1. simpl. rewrite Hs, <- app_assoc. auto.
      * unfold advanced. simpl.
        assert (Hlt : i < i + length w1) by now apply cons_app_length.
        rewrite (proj2 (Nat.ltb_lt _ _) Hlt). apply in_or_app.
        destruct w2 as [|c w2].
        -- right. left. rewrite app_nil_r in Hi. simpl.
           rewrite <- Hi. now destruct z.
        -- left. apply IH.
           ++ subst s. rewrite <- app_assoc, length_app in Hlen. lia.
           ++ exists (c :: w2). repeat split; trivial.
              ** rewrite Hi, length_app. lia.
              ** discriminate.
Qed.

End Loop.

(** Soundness and completeness of the matcher: its results are exactly the
    ways of splitting the input into a word of the language and a rest. *)
Lemma rmatch_spec (r : regex) :
  forall i s z,
    In z (rmatch r (i, s)) <->
    exists w, s = w ++ snd z /\ fst z = i + length w /\ lang r i w.
Proof.
  induction r as [| |c|p|r1 IH1 r2 IH2|r1 IH1 r2 IH2|r1 IH1|r1 IH1|r1 IH1];
    intros i s z; simpl.
  - split.
    + intros [<-|[]]. exists []. simpl. auto.
    + intros (w & Hs & Hi & ->). simpl in *. left.
      rewrite Nat.add_0_r in Hi. subst. now destruct z.
  - destruct (i =? 0) eqn:E.
    + apply Nat.eqb_eq in E. split.
      * intros [<-|[]]. exists []. simpl. auto.
      * intros (w & Hs & Hi & _ & ->). simpl in *. left.
        rewrite Nat.add_0_r in Hi. subst s. rewrite <- Hi. now destruct z.
    + apply Nat.eqb_neq in E. split; [intros []|].
      intros (w & _ & _ & H0 & _). contradiction.
  - destruct s as [|d t].
    + split; [intros []|]. intros (w & Hs & _ & ->). discriminate.
    + destruct (N.eqb d c) eqn:E.
      * apply N.eqb_eq in E. subst d. split.
        -- intros [<-|[]]. exists [c]. simpl. split; [reflexivity|].
           split; [lia|reflexivity].
        -- intros (w & Hs & Hi & ->). simpl in *. left.
           injection Hs as Hs. subst t. replace (S i) with (i + 1) by lia.
           rewrite <- Hi. now destruct z.
      * apply N.eqb_neq in E. split; [intros []|].
        intros (w & Hs & _ & ->). simpl in Hs. congruence.
  - destruct s as [|d t].
    + split; [intros []|]. intros (w & Hs & _ & c & -> & _). discriminate.
    + destruct (p d) eqn:E.
      * split.
        -- intros [<-|[]]. exists [d]. simpl. split; [reflexivity|].
           split; [lia|]. exists d. auto.
        -- intros (w & Hs & Hi & c & -> & _). simpl in *. left.
           injection Hs as _ Hs. subst t. replace (S i) with (i + 1) by lia.
           rewrite <- Hi. now destruct z.
      * split; [intros []|].
        intros (w & Hs & _ & c & -> & Hc). simpl in Hs. congruence.
  - rewrite in_flat_map. split.
    + intros ([j s1] & Hy & Hz).
      apply IH1 in Hy. destruct Hy as (w1 & Hs & Hj & L1).
      apply IH2 in Hz. destruct Hz as (w2 & Hs1 & Hi & L2).
      simpl in *. subst s s1 j.
      exists (w1 ++ w2). rewrite <- app_assoc, length_app.
      split; [reflexivity|]. split; [lia|]. exists w1, w2. auto.
    + intros (w & Hs & Hi & w1 & w2 & -> & L1 & L2).
      exists (i + length w1, w2 ++ snd z). split.
      * apply IH1. exists w1. simpl. rewrite Hs, <- app_assoc. auto.
      * apply IH2. exists w2. rewrite Hi, length_app.
        split; [reflexivity|]. split; [lia|trivial].
  - rewrite in_app_iff, IH1, IH2. split.
    + intros [(w & ? & ? & ?)|(w & ? & ? & ?)]; exists w; auto.
    + intros (w & ? & ? & [?|?]); [left|right]; exists w; auto.
  - apply IH1.
  - rewrite in_app_iff, filter_In, IH1. unfold advanced. simpl. split.
    + intros [[(w & Hs & Hi & L) Hadv]|[<-|[]]].
      * exists w. repeat split; trivial. right. split; trivial.
        apply Nat.ltb_lt in Hadv. rewrite Hi in Hadv.
        now apply cons_app_length in Hadv.
      * exists []. simpl. auto.
    + intros (w & Hs & Hi & [->|[Hne L]]).
      * right. left. simpl in *. rewrite Nat.add_0_r in Hi.
        subst. now destruct z.
      * left. split; [exists w; auto|].
        apply Nat.ltb_lt. rewrite Hi. now apply cons_app_length.
  - rewrite in_flat_map. split.
    + intros ([j s1] & Hy & Hz).
      apply IH1 in Hy. destruct Hy as (w1 & Hs & Hj & L1). simpl in Hs, Hj.
      apply in_app_or in Hz. destruct Hz as [Hz|[Hz|[]]].
      * apply (@iter_spec (rmatch r1) (lang r1) IH1) in Hz; [|simpl; lia].
        destruct Hz as (w2 & Hs1 & Hi & _ & Hit).
        exists (w1 ++ w2). subst s s1 j.
        rewrite <- app_assoc, length_app.
        split; [reflexivity|]. split; [lia|]. exists w1, w2. auto.
      * subst z. exists w1. simpl. repeat split; trivial.
        exists w1, []. rewrite app_nil_r. repeat split; trivial.
        apply IterDone.
    + intros (w & Hs & Hi & w1 & w2 & -> & L1 & Hit).
      exists (i + length w1, w2 ++ snd z). split.
      * apply IH1. exists w1. simpl. rewrite Hs, <- app_assoc. auto.
      * apply in_or_app. destruct w2 as [|c w2].
        -- right. left. rewrite app_nil_r in Hi. simpl.
           rewrite <- Hi. now destruct z.
        -- left. apply (@iter_spec (rmatch r1) (lang r1) IH1); [simpl; lia|].
           exists (c :: w2). rewrite Hi, length_app.
           split; [reflexivity|]. split; [lia|]. split; [discriminate|trivial].
Qed.

End Matcher.

(** ** [test] on an object without flags *)

Section Test.

Lemma rmatch_nonempty (r : regex) (i : nat) (s : jsstring) :
  rmatch r (i, s) <> [] <-> exists w post, s = w ++ post /\ lang r i w.
Proof.
  split.
  - destruct (rmatch r (i, s)) as [|z l] eqn:E; [congruence|]. intros _.
    assert (Hz : In z (rmatch r (i, s))) by (rewrite E; now left).
    apply rmatch_spec in Hz. destruct Hz as (w & Hs & _ & L).
    now exists w, (snd z).
  - intros (w & post & Hs & L) E.
    assert (Hz : In (i + length w, post) (rmatch r (i, s))).
    { apply rmatch_spec. exists w. auto. }
    rewrite E in Hz. destruct Hz.
Qed.

Lemma search_spec (r : regex) :
  forall s i,
    search r i s <> None <->
    exists pre w post, s = pre ++ w ++ post /\ lang r (i + length pre) w.
Proof.
  induction s as [|c t IH]; intros i; cbn [search].
  - destruct (rmatch r _) as [|z l] eqn:E.
    + split; [intros H; now elim H|].
      intros (pre & w & post & Hs & L).
      destruct pre; [|discriminate]. simpl in *. rewrite Nat.add_0_r in L.
      exfalso. apply (proj2 (rmatch_nonempty r i [])); trivial.
      now exists w, post.
    + split; [intros _|discriminate].
      destruct (proj1 (rmatch_nonempty r i [])) as (w & post & Hs & L).
      * rewrite E. discriminate.
      * exists [], w, post. simpl. now rewrite Nat.add_0_r.
  - destruct (rmatch r _) as [|z l] eqn:E.
    + rewrite IH. split.
      * intros (pre & w & post & Hs & L).
        exists (c :: pre), w, post. simpl. subst t. split; [reflexivity|].
        now replace (i + S (length pre)) with (S i + length pre) by lia.
      * intros (pre & w & post & Hs & L).
        destruct pre as [|d pre].
        -- exfalso. apply (proj2 (rmatch_nonempty r i (c :: t))); trivial.
           simpl in *. rewrite Nat.add_0_r in L. now exists w, post.
        -- injection Hs as _ Hs. exists pre, w, post. split; [trivial|].
           simpl in L.
           now replace (S i + length pre) with (i + S (length pre)) by lia.
    + split; [intros _|discriminate].
      destruct (proj1 (rmatch_nonempty r i (c :: t))) as (w & post & Hs & L).
      * rewrite E. discriminate.
      * exists [], w, post. simpl. now rewrite Nat.add_0_r.
Qed.

(** Without [g] and [y], [test] ignores [lastIndex], leaves the object as it
    was, and answers as a fresh literal of the same pattern would. *)
Lemma test_flagless (R : RegExp) (s : jsstring) :
  flagless R -> test R s = (matches (pattern R) s, R).
Proof.
  destruct R as [r g y li]. intros [Hg Hy]. simpl in Hg, Hy. subst g y.
  unfold matches, test, exec, literal. simpl.
  now destruct (search r 0 s).
Qed.

Lemma matches_spec (r : regex) (s : jsstring) :
  matches r s = true <-> found r s.
Proof.
  unfold matches, test, exec, literal, found. simpl.
  pose proof (search_spec r s 0) as H. simpl in H.
  destruct (search r 0 s); simpl.
  - split; [intros _; apply H; discriminate|reflexivity].
  - split; [discriminate|]. intros F. apply (proj2 H) in F. now elim F.
Qed.

End Test.

(** ** The two patterns of [commitLint] *)

Section Patterns.

Lemma lang_chars_list (l : jsstring) :
  forall i v,
    lang (fold_right (fun c r => Seq (Lit c) r) Eps l) i v <-> v = l.
Proof.
  induction l as [|c l IH]; intros i v; simpl.
  - tauto.
  - split.
    + intros (w1 & w2 & -> & -> & L). apply IH in L. now subst.
    + intros ->. exists [c], l. repeat split. now apply IH.
Qed.

Lemma lang_chars (w : string) (i : nat) (v : jsstring) :
  lang (chars w) i v <-> v = lit w.
Proof. apply lang_chars_list. Qed.

Lemma lang_alts (rs : list regex) (i : nat) (v : jsstring) :
  rs <> [] ->
  (lang (alts rs) i v <-> exists r, In r rs /\ lang r i v).
Proof.
  induction rs as [|r rs IH]; [congruence|]. intros _.
  destruct rs as [|r' rs].
  - simpl. split.
    + intros L. exists r. auto.
    + intros (r0 & [<-|[]] & L). trivial.
  - change (alts (r :: r' :: rs)) with (Alt r (alts (r' :: rs))).
    simpl lang. rewrite IH by discriminate. split.
    + intros [L|(r0 & Hin & L)].
      * exists r. split; [now left|trivial].
      * exists r0. split; [now right|trivial].
    + intros (r0 & [<-|Hin] & L); [now left|right]. now exists r0.
Qed.

Lemma iter_class (p : class) :
  forall v i, Iter (lang (Class p)) i v <-> forallb p v = true.
Proof.
  intros v i. split.
  - induction 1 as [|i w1 w2 (c & -> & Hc) _ _ IH]; [reflexivity|].
    simpl. now rewrite Hc.
  - revert i. induction v as [|c v IH]; intros i H.
    + apply IterDone.
    + simpl in H. apply andb_prop in H. destruct H as [Hc Hv].
      change (c :: v) with ([c] ++ v). apply IterStep.
      * now exists c.
      * discriminate.
      * now apply IH.
Qed.

Lemma lang_plus_class (p : class) (i : nat) (v : jsstring) :
  lang (Plus (Class p)) i v <-> v <> [] /\ forallb p v = true.
Proof.
  simpl. split.
  - intros (w1 & w2 & -> & (c & -> & Hc) & Hit).
    apply iter_class in Hit. simpl. rewrite Hc, Hit. split; [discriminate|auto].
  - intros [Hne H]. destruct v as [|c v]; [congruence|].
    simpl in H. apply andb_prop in H. destruct H as [Hc Hv].
    exists [c], v. repeat split.
    + now exists c.
    + now apply iter_class.
Qed.

(** [[^\W\_]] is the class of ASCII letters and digits. *)
Lemma hasText_class (c : N) :
  negated (union nonword (char "_")) c = isAlnum c.
Proof.
  unfold negated, union, nonword, negated, word, isAlnum, union.
  destruct (char "_" c) eqn:E.
  - unfold char in E. simpl in E. apply N.eqb_eq in E. now subst c.
  - now rewrite !orb_false_r, negb_involutive.
Qed.

(** [hasTextRegex.test(l)] says whether [l] has a letter or a digit. *)
Lemma hasText_spec (l : jsstring) :
  matches hasTextPattern l = hasAlnum l.
Proof.
  apply eq_true_iff_eq. rewrite matches_spec. unfold hasAlnum.
  rewrite existsb_exists. unfold found, hasTextPattern. split.
  - intros (pre & w & post & -> & w1 & w2 & -> & (c & -> & Hc) & _).
    exists c. rewrite hasText_class in Hc. split; [|trivial].
    apply in_or_app. right. now left.
  - intros (c & Hin & Hc). apply in_split in Hin.
    destruct Hin as (pre & post & ->).
    exists pre, [c], post. split; [reflexivity|].
    exists [c], []. repeat split.
    + exists c. now rewrite hasText_class.
    + apply IterDone.
Qed.

End Patterns.

(** ** The header pattern *)

Section Header.

Lemma isType_chars (r : regex) (i : nat) (w : jsstring) :
  In r (map chars types) -> lang r i w -> isType w.
Proof.
  intros Hin L. apply in_map_iff in Hin. destruct Hin as (ty & <- & Hty).
  apply lang_chars in L. subst w. unfold isType. now apply in_map.
Qed.

Lemma lang_type (t : jsstring) (i : nat) :
  isType t -> lang (Group (alts (map chars types))) i t.
Proof.
  intros Ht. unfold isType in Ht. apply in_map_iff in Ht.
  destruct Ht as (ty & <- & Hty). cbn [lang].
  apply lang_alts; [discriminate|].
  exists (chars ty). split; [now apply in_map|now apply lang_chars].
Qed.

Lemma nonempty_head (w : jsstring) (p : class) :
  w <> [] -> forallb p w = true -> exists c w', w = c :: w' /\ p c = true.
Proof.
  destruct w as [|c w']; [congruence|]. simpl. intros _ H.
  apply andb_prop in H. exists c, w'. tauto.
Qed.

(** What [headerRegex.test] accepts: a type tag at the very start, an
    optional scope in parentheses, [: ] and one more character, where [.]
    stands for any character that is not a line terminator. *)
Lemma header_spec (s : jsstring) :
  matches headerPattern s = true <-> HeaderForm dot s.
Proof.
  rewrite matches_spec. unfold found, headerPattern. cbn [seqs lang]. split.
  - intros (pre & w & post & -> & w1 & w2 & -> & (Hpre & ->) & w3 & w4 & ->
            & Ht & w5 & w6 & -> & Hopt & w7 & w8 & -> & Hc & Hs).
    apply length_zero_iff_nil in Hpre. subst pre.
    apply lang_alts in Ht; [|discriminate]. destruct Ht as (r & Hr & Ht).
    apply isType_chars in Ht; [|exact Hr].
    apply lang_chars in Hc. subst w7.
    apply lang_plus_class in Hs. destruct Hs as [Hne Hs].
    destruct (@nonempty_head w8 dot Hne Hs) as (c & w8' & -> & Hdot).
    destruct Hopt as [->|[_ (v1 & v2 & -> & Hopen & v3 & v4 & -> & Hscope & Hclose)]].
    + cbn [app]. rewrite <- !app_assoc. cbn [app].
      apply (@HeaderPlain dot w3 c (w8' ++ post)); trivial.
    + apply lang_chars in Hopen, Hclose. subst v1 v4.
      apply lang_plus_class in Hscope. destruct Hscope as [Hne' Hscope].
      cbn [app]. rewrite <- !app_assoc. cbn [app].
      apply (@HeaderScoped dot w3 v3 c (w8' ++ post)); trivial.
  - intros [t c subject Ht Hc|t scope c subject Ht Hne Hscope Hc].
    + exists [], (t ++ lit ": " ++ [c]), subject. split.
      { cbn [app]. now rewrite <- !app_assoc. }
      exists [], (t ++ lit ": " ++ [c]). repeat split.
      exists t, (lit ": " ++ [c]). split; [reflexivity|].
      split; [now apply lang_type|].
      exists [], (lit ": " ++ [c]). split; [reflexivity|].
      split; [now left|].
      exists (lit ": "), [c]. split; [reflexivity|].
      split; [now apply lang_chars|].
      apply lang_plus_class. simpl. rewrite Hc. split; [discriminate|auto].
    + exists [], (t ++ (lit "(" ++ scope ++ lit ")") ++ lit ": " ++ [c]), subject.
      split.
      { cbn [app]. now rewrite <- !app_assoc. }
      exists [], (t ++ (lit "(" ++ scope ++ lit ")") ++ lit ": " ++ [c]).
      repeat split.
      exists t, ((lit "(" ++ scope ++ lit ")") ++ lit ": " ++ [c]).
      split; [reflexivity|]. split; [now apply lang_type|].
      exists (lit "(" ++ scope ++ lit ")"), (lit ": " ++ [c]).
      split; [reflexivity|]. split.
      * right. split; [discriminate|].
        exists (lit "("), (scope ++ lit ")"). split; [reflexivity|].
        split; [now apply lang_chars|].
        exists scope, (lit ")"). split; [reflexivity|].
        split; [now apply lang_plus_class|now apply lang_chars].
      * exists (lit ": "), [c]. split; [reflexivity|].
        split; [now apply lang_chars|].
        apply lang_plus_class. simpl. rewrite Hc. split; [discriminate|auto].
Qed.

(** A header form stays one when text is appended, and when the characters
    allowed are more. *)
Lemma HeaderForm_app (ok : class) (h tail : jsstring) :
  HeaderForm ok h -> HeaderForm ok (h ++ tail).
Proof.
  intros [t c subject Ht Hc|t scope c subject Ht Hne Hscope Hc].
  - replace ((t ++ lit ": " ++ c :: subject) ++ tail)
      with (t ++ lit ": " ++ c :: (subject ++ tail))
      by (now rewrite <- !app_assoc).
    now apply HeaderPlain.
  - replace ((t ++ lit "(" ++ scope ++ lit "): " ++ c :: subject) ++ tail)
      with (t ++ lit "(" ++ scope ++ lit "): " ++ c :: (subject ++ tail))
      by (now rewrite <- !app_assoc).
    now apply HeaderScoped.
Qed.

(** The type tag of a header form is its leading tag. *)
Lemma leadingTag_type (t rest : jsstring) (c : N) :
  isType t -> char ":" c || char "(" c = true ->
  leadingTag (t ++ c :: rest) = t.
Proof.
  intros Ht Hc. unfold isType in Ht. simpl in Ht.
  repeat (destruct Ht as [<-|Ht];
          [cbn -[char]; now rewrite Hc|]).
  destruct Ht.
Qed.

Lemma HeaderForm_leadingTag (ok : class) (s : jsstring) :
  HeaderForm ok s -> isType (leadingTag s).
Proof.
  intros [t c subject Ht Hc|t scope c subject Ht Hne Hscope Hc].
  - change (lit ": " ++ c :: subject) with (58%N :: 32%N :: c :: subject).
    now rewrite leadingTag_type.
  - change (lit "(" ++ scope ++ lit "): " ++ c :: subject)
      with (40%N :: scope ++ lit "): " ++ c :: subject).
    now rewrite leadingTag_type.
Qed.

End Header.

(** ** Lines *)

Section Lines.

Lemma jsstring_eqb_eq (a b : jsstring) : jsstring_eqb a b = true <-> a = b.
Proof.
  revert b. induction a as [|x a IH]; intros [|y b]; simpl;
    try (split; [discriminate|congruence]); try tauto.
  rewrite andb_true_iff, N.eqb_eq, IH. split.
  - now intros [-> ->].
  - intros H. injection H as -> ->. auto.
Qed.

Lemma split_nonempty (sep : N) (m : jsstring) : split sep m <> [].
Proof.
  destruct m as [|c t]; simpl; [discriminate|].
  destruct (N.eqb c sep); [discriminate|].
  destruct (split sep t); discriminate.
Qed.

Lemma split_prefix (sep : N) :
  forall m l ls, split sep m = l :: ls -> exists tail, m = l ++ tail.
Proof.
  induction m as [|c t IH]; simpl; intros l ls H.
  - injection H as <- _. now exists [].
  - destruct (N.eqb c sep).
    + injection H as <- _. now exists (c :: t).
    + destruct (split sep t) as [|l' ls'] eqn:E.
      * now elim (split_nonempty sep t).
      * injection H as <- _. destruct (IH l' ls' eq_refl) as (tail & ->).
        now exists tail.
Qed.

Lemma line0_prefix (m : jsstring) : exists tail, m = line 0 m ++ tail.
Proof.
  unfold line, lines. destruct (split LF m) as [|l ls] eqn:E.
  - now elim (split_nonempty LF m).
  - simpl. apply (split_prefix _ _ _ _ E).
Qed.

(** Text without a line feed that starts a message starts its first line. *)
Lemma prefix_line0 (w post : jsstring) :
  ~ In LF w -> exists post', line 0 (w ++ post) = w ++ post'.
Proof.
  unfold line, lines. induction w as [|c w IH]; intros Hw.
  - now exists (nth 0 (split LF post) []).
  - destruct IH as (post' & IH); [intros H; apply Hw; now right|].
    simpl. destruct (N.eqb c LF) eqn:E.
    + apply N.eqb_eq in E. elim Hw. now left.
    + destruct (split LF (w ++ post)) as [|l ls] eqn:Es.
      * now elim (split_nonempty LF (w ++ post)).
      * simpl in *. exists post'. now rewrite IH.
Qed.

(** A message without a line feed is its own single line. *)
Lemma split_single (m : jsstring) : ~ In LF m -> lines m = [m].
Proof.
  unfold lines. induction m as [|c t IH]; intros H; [reflexivity|].
  simpl. destruct (N.eqb c LF) eqn:E.
  - apply N.eqb_eq in E. elim H. now left.
  - rewrite IH; [reflexivity|]. intros Hin. apply H. now right.
Qed.

Lemma index_line (m : jsstring) (k : nat) :
  k < length (lines m) -> index (lines m) k = Str (line k m).
Proof.
  intros H. unfold index, line.
  now rewrite (nth_error_nth' (lines m) [] H).
Qed.

Lemma avoids_iter (c : N) (P : nat -> jsstring -> Prop) :
  (forall i w, P i w -> ~ In c w) ->
  forall i w, Iter P i w -> ~ In c w.
Proof.
  intros HP i w. induction 1 as [|i w1 w2 H1 _ _ IH]; [intros []|].
  intros Hin. apply in_app_or in Hin. destruct Hin as [Hin|Hin].
  - now apply (HP _ _ H1).
  - now apply IH.
Qed.

(** A pattern that avoids a character only matches words without it. *)
Lemma avoids_lang (c : N) (r : regex) :
  avoids c r = true -> forall i w, lang r i w -> ~ In c w.
Proof.
  induction r as [| |d|p|r1 IH1 r2 IH2|r1 IH1 r2 IH2|r1 IH1|r1 IH1|r1 IH1];
    simpl; intros Hav i w L.
  - subst w. intros [].
  - destruct L as [_ ->]. intros [].
  - subst w. intros [->|[]]. now rewrite N.eqb_refl in Hav.
  - destruct L as (d & -> & Hd). intros [->|[]]. now rewrite Hd in Hav.
  - apply andb_prop in Hav. destruct Hav as [H1 H2].
    destruct L as (w1 & w2 & -> & L1 & L2). intros Hin.
    apply in_app_or in Hin. destruct Hin as [Hin|Hin].
    + now apply (IH1 H1 _ _ L1).
    + now apply (IH2 H2 _ _ L2).
  - apply andb_prop in Hav. destruct Hav as [H1 H2].
    destruct L as [L|L]; [now apply (IH1 H1 _ _ L)|now apply (IH2 H2 _ _ L)].
  - now apply (IH1 Hav _ _ L).
  - destruct L as [->|[_ L]]; [intros []|now apply (IH1 Hav _ _ L)].
  - destruct L as (w1 & w2 & -> & L1 & Hit). intros Hin.
    apply in_app_or in Hin. destruct Hin as [Hin|Hin].
    + now apply (IH1 Hav _ _ L1).
    + now apply (avoids_iter c _ (IH1 Hav) _ _ Hit).
Qed.

Lemma header_anchored (i : nat) (w : jsstring) :
  lang headerPattern i w -> i = 0.
Proof.
  unfold headerPattern. cbn [seqs lang].
  now intros (w1 & w2 & _ & (H & _) & _).
Qed.

(** The header pattern only ever looks at the first line: testing the whole
    message, as the source does, is testing line 0. *)
Lemma header_line0 (m : jsstring) :
  matches headerPattern (line 0 m) = matches headerPattern m.
Proof.
  apply eq_true_iff_eq. rewrite !matches_spec. unfold found. split.
  - intros (pre & w & post & Hl & L).
    destruct (line0_prefix m) as (tail & Hm).
    exists pre, w, (post ++ tail). split; [|trivial].
    rewrite Hm at 1. rewrite Hl. now rewrite <- !app_assoc.
  - intros (pre & w & post & Hm & L).
    pose proof (header_anchored _ _ L) as Hpre.
    apply length_zero_iff_nil in Hpre. subst pre. simpl in Hm.
    assert (Hw : ~ In LF w) by now apply (avoids_lang LF headerPattern eq_refl _ _ L).
    destruct (prefix_line0 w post Hw) as (post' & Hl).
    exists [], w, post'. subst m. now split.
Qed.

End Lines.

(** ** [commitLint] as a cascade of checks *)

Section Cascade.

Lemma literal_flagless (r : regex) : flagless (literal r).
Proof. now split. Qed.

Lemma set_lastIndex_flagless (R : RegExp) (i : nat) :
  flagless R -> flagless (set_lastIndex R i).
Proof. now intros [? ?]. Qed.

Lemma guarded_flagless (guard : bool) (R : RegExp) (v : jsval) :
  flagless R ->
  guarded_no_match guard R v =
  (guard && negb (matches (pattern R) (ToString v)), R).
Proof.
  intros HR. unfold guarded_no_match. destruct guard; [|reflexivity].
  now rewrite (test_flagless R _ HR).
Qed.

(** On objects without flags the calls to [test] change nothing, and the
    result is that of fresh literals of the same patterns. *)
Lemma commitLint_with_flagless (h t : RegExp) (c : Commit) :
  flagless h -> flagless t ->
  commitLint_with h t c =
  (fst (commitLint_with (literal (pattern h)) (literal (pattern t)) c), (h, t)).
Proof.
  intros Hh Ht. unfold commitLint_with.
  rewrite !(guarded_flagless _ t _ Ht), (test_flagless h _ Hh).
  rewrite !(guarded_flagless _ (literal (pattern t)) _ (literal_flagless _)).
  rewrite (test_flagless (literal (pattern h)) _ (literal_flagless _)).
  cbv beta iota zeta. cbn [pattern literal].
  case_conditions.
Qed.

Lemma commitLint_unfold (c : Commit) :
  commitLint c =
  if negb (ToBoolean (msg c)) then Some (noMessageError (sha c)) else
  let m := ToString (msg c) in
  if negb (matches headerPattern m) then Some (headerError (sha c)) else
  if (1 <? length (lines m)) && strict_neq (index (lines m) 1) []
  then Some (blank2Error (sha c)) else
  if (2 <? length (lines m))
     && negb (matches hasTextPattern (ToString (index (lines m) 2)))
  then Some (bodyError (sha c)) else
  if (3 <? length (lines m)) && strict_neq (index (lines m) 3) []
  then Some (blank4Error (sha c)) else
  if (4 <? length (lines m))
     && negb (matches hasTextPattern (ToString (index (lines m) 4)))
  then Some (footerError (sha c)) else None.
Proof.
  unfold commitLint, commitLint_with, lines.
  rewrite !(guarded_flagless _ (literal hasTextPattern) _ (literal_flagless _)).
  rewrite (test_flagless (literal headerPattern) _ (literal_flagless _)).
  cbv beta iota zeta. cbn [pattern literal].
  case_conditions.
Qed.

(** A truthy message is a non-empty string. *)
Lemma truthy_message (c : Commit) :
  ToBoolean (msg c) = true ->
  exists m, msg c = Str m /\ m <> [] /\ ToString (msg c) = m /\ messageText c = m.
Proof.
  unfold messageText. destruct (msg c) as [| |[|x m]]; simpl; try discriminate.
  intros _. exists (x :: m). repeat split. discriminate.
Qed.

Lemma guard_neq (m : jsstring) (k : nat) :
  (k <? length (lines m)) && strict_neq (index (lines m) k) [] =
  (k <? length (lines m)) && negb (jsstring_eqb (line k m) []).
Proof.
  destruct (k <? length (lines m)) eqn:E; [|reflexivity].
  apply Nat.ltb_lt in E. now rewrite (index_line _ _ E).
Qed.

Lemma guard_text (m : jsstring) (k : nat) :
  (k <? length (lines m))
  && negb (matches hasTextPattern (ToString (index (lines m) k))) =
  (k <? length (lines m)) && negb (hasAlnum (line k m)).
Proof.
  destruct (k <? length (lines m)) eqn:E; [|reflexivity].
  apply Nat.ltb_lt in E. rewrite (index_line _ _ E). simpl.
  now rewrite hasText_spec.
Qed.

(** [commitLint] evaluates the ordered list of checks until the first
    failure. *)
Lemma commitLint_firstFailure (c : Commit) :
  commitLint c = firstFailure c.
Proof.
  rewrite commitLint_unfold.
  unfold firstFailure, firstViolation, checks, violated. cbn [find].
  destruct (ToBoolean (msg c)) eqn:Eb; [|reflexivity]. cbn [negb].
  destruct (truthy_message c Eb) as (m & _ & _ & -> & ->). cbv zeta.
  rewrite header_line0, !guard_neq, !guard_text.
  destruct (negb (matches headerPattern m)); [reflexivity|].
  destruct (_ && negb (jsstring_eqb (line 1 m) [])); [reflexivity|].
  destruct (_ && negb (hasAlnum (line 2 m))); [reflexivity|].
  destruct (_ && negb (jsstring_eqb (line 3 m) [])); [reflexivity|].
  now destruct (_ && negb (hasAlnum (line 4 m))).
Qed.

(** The first violated check is the one no earlier check precedes. *)
Lemma firstViolation_intro (c : Commit) (k : check) :
  violated k c = true ->
  (forall j, rank j < rank k -> violated j c = false) ->
  firstViolation c = Some k.
Proof.
  intros Hk Hbefore. unfold firstViolation, checks.
  destruct k; cbn [find];
    repeat (rewrite Hbefore by (simpl; lia)); now rewrite Hk.
Qed.

Lemma firstViolation_elim (c : Commit) (k : check) :
  firstViolation c = Some k ->
  violated k c = true /\ forall j, rank j < rank k -> violated j c = false.
Proof.
  unfold firstViolation, checks. cbn [find].
  destruct (violated NoMessage c) eqn:E0;
    [intros H; injection H as <-; split; [trivial|intros []; simpl; lia]|].
  destruct (violated HeaderFormat c) eqn:E1;
    [intros H; injection H as <-; split;
     [trivial|intros []; simpl; trivial; lia]|].
  destruct (violated Line2Blank c) eqn:E2;
    [intros H; injection H as <-; split;
     [trivial|intros []; simpl; trivial; lia]|].
  destruct (violated Line3Body c) eqn:E3;
    [intros H; injection H as <-; split;
     [trivial|intros []; simpl; trivial; lia]|].
  destruct (violated Line4Blank c) eqn:E4;
    [intros H; injection H as <-; split;
     [trivial|intros []; simpl; trivial; lia]|].
  destruct (violated FooterText c) eqn:E5;
    [intros H; injection H as <-; split;
     [trivial|intros []; simpl; trivial; lia]|].
  discriminate.
Qed.

(** The six messages of one commit are six different strings. *)
Lemma reason_injective (sha : jsval) (j k : check) :
  reason j sha = reason k sha -> j = k.
Proof.
  destruct j, k; trivial; intros H; exfalso;
    unfold reason, noMessageError, headerError, blank2Error, bodyError,
      blank4Error, footerError, errorMessage in H;
    rewrite <- ?app_assoc in H;
    repeat apply app_inv_head in H; discriminate H.
Qed.

Lemma reason_Some_injective (sha : jsval) (j k : check) :
  Some (reason j sha) = Some (reason k sha) -> j = k.
Proof. intros E. apply (reason_injective sha). congruence. Qed.

End Cascade.

(** ** Properties of [commitLint] *)

Section Properties.

Lemma passes_header (c : Commit) (m : jsstring) :
  msg c = Str m -> matches headerPattern m = true ->
  messageText c = m /\
  violated NoMessage c = false /\ violated HeaderFormat c = false.
Proof.
  intros Hm Hh. unfold violated, messageText. rewrite Hm.
  rewrite header_line0, Hh. repeat split.
  destruct m; [discriminate Hh|reflexivity].
Qed.

Lemma blank_line (m : jsstring) (k : nat) :
  line k m = [] ->
  (k <? length (lines m)) && negb (jsstring_eqb (line k m) []) = false.
Proof. intros ->. apply andb_false_r. Qed.

(** C1. When several of the six checks are violated, [commitLint] returns
    the error of the earliest violated one only: with [j] the earliest
    violated check and [k] a later violated one, the result is the message
    of [j], it is not the message of [k], and it is the message of no other
    check. *)
Theorem commitLint_reports_earliest_violation (c : Commit) (j k : check) :
  rank j < rank k ->
  violated j c = true ->
  violated k c = true ->
  (forall i, rank i < rank j -> violated i c = false) ->
  commitLint c = Some (reason j (sha c)) /\
  commitLint c <> Some (reason k (sha c)) /\
  (forall i, i <> j -> commitLint c <> Some (reason i (sha c))).
Proof.
  intros Hjk Hj _ Hearliest.
  assert (R : commitLint c = Some (reason j (sha c))).
  { rewrite commitLint_firstFailure. unfold firstFailure.
    now rewrite (firstViolation_intro c j Hj Hearliest). }
  assert (Only : forall i, i <> j -> commitLint c <> Some (reason i (sha c))).
  { intros i Hi E. rewrite R in E.
    apply reason_Some_injective in E. congruence. }
  repeat split; trivial. apply Only. intros ->. lia.
Qed.

(** A second line that is not blank and a third line of spaces: only the
    line-2 error comes back. *)
Lemma commitLint_reports_earliest_violation_witness :
  let c := mkCommit (Str (lit "abc")) (Str (text ["feat: x"; "foo"; "   "]%string)) in
  commitLint c = Some (blank2Error (sha c)) /\
  commitLint c <> Some (bodyError (sha c)) /\
  (forall i, i <> Line2Blank -> commitLint c <> Some (reason i (sha c))).
Proof.
  intros c.
  apply (commitLint_reports_earliest_violation c Line2Blank Line3Body).
  - simpl. lia.
  - reflexivity.
  - reflexivity.
  - intros [] H; simpl in H; try lia; reflexivity.
Defined.

(** C2, as the code has it. For a message of more than two lines that
    passes the header check and has an empty second line, [commitLint]
    returns the line-3 body error exactly when the third line has no ASCII
    letter or digit; underscores do not count as text. *)
Theorem body_check_wants_alnum (c : Commit) (m : jsstring) :
  msg c = Str m ->
  matches headerPattern m = true ->
  2 < length (lines m) ->
  line 1 m = [] ->
  (commitLint c = Some (bodyError (sha c)) <-> hasAlnum (line 2 m) = false).
Proof.
  intros Hm Hh Hlen H1.
  destruct (passes_header c m Hm Hh) as (Ht & E0 & E1).
  assert (E2 : violated Line2Blank c = false).
  { unfold violated. rewrite Ht. now apply blank_line. }
  assert (E3 : violated Line3Body c = negb (hasAlnum (line 2 m))).
  { unfold violated. rewrite Ht.
    now rewrite (proj2 (Nat.ltb_lt _ _) Hlen). }
  rewrite commitLint_firstFailure.
  unfold firstFailure, firstViolation, checks. cbn [find].
  rewrite E0, E1, E2, E3.
  destruct (hasAlnum (line 2 m)); cbn [negb].
  - split; [|discriminate].
    destruct (violated Line4Blank c);
      [|destruct (violated FooterText c)]; cbn [option_map]; intros E;
      try discriminate E;
      apply (reason_Some_injective (sha c) _ Line3Body) in E; discriminate E.
  - split; reflexivity.
Qed.

(** The example of the specification: a body line of spaces. *)
Lemma body_check_wants_alnum_witness :
  let c := mkCommit (Str (lit "abc"))
             (Str (text ["fix(core): bug"; ""; "   "; ""; "footer"]%string)) in
  commitLint c = Some (bodyError (sha c)) <->
  hasAlnum (lit "   ") = false.
Proof.
  intros c.
  apply (body_check_wants_alnum c
           (text ["fix(core): bug"; ""; "   "; ""; "footer"]%string)).
  - reflexivity.
  - reflexivity.
  - simpl. lia.
  - reflexivity.
Defined.

(** C2 as stated fails: a body line of underscores holds
    alphanumeric-or-underscore characters, and is refused all the same. *)
Lemma body_of_underscores_is_refused :
  ~ (forall (c : Commit) (m : jsstring),
        msg c = Str m ->
        matches headerPattern m = true ->
        2 < length (lines m) ->
        line 1 m = [] ->
        (commitLint c = Some (bodyError (sha c)) <->
         existsb isAlnumOrUnderscore (line 2 m) = false)).
Proof.
  intros H.
  pose (m := text ["fix(core): bug"; ""; "___"]%string).
  specialize (H (mkCommit (Str (lit "abc")) (Str m)) m
                eq_refl eq_refl).
  destruct H as [H _]; [simpl; lia|reflexivity|].
  specialize (H eq_refl). discriminate H.
Qed.

(** C6. A message of more than one line that passes the header check and
    whose second line is not the empty string gets the line-2 error. *)
Theorem second_line_must_be_blank (c : Commit) (m : jsstring) :
  msg c = Str m ->
  matches headerPattern m = true ->
  1 < length (lines m) ->
  line 1 m <> [] ->
  commitLint c = Some (blank2Error (sha c)).
Proof.
  intros Hm Hh Hlen H1.
  destruct (passes_header c m Hm Hh) as (Ht & E0 & E1).
  rewrite commitLint_firstFailure. unfold firstFailure.
  rewrite (firstViolation_intro c Line2Blank); [reflexivity| |].
  - unfold violated. rewrite Ht, (proj2 (Nat.ltb_lt _ _) Hlen).
    destruct (jsstring_eqb (line 1 m) []) eqn:E; [|reflexivity].
    apply jsstring_eqb_eq in E. contradiction.
  - intros [] H; simpl in H; trivial; lia.
Qed.

Lemma second_line_must_be_blank_witness :
  let c := mkCommit (Str (lit "abc")) (Str (text ["feat: add x"; "some text"]%string)) in
  commitLint c = Some (blank2Error (sha c)).
Proof.
  intros c.
  apply (second_line_must_be_blank c (text ["feat: add x"; "some text"]%string)).
  - reflexivity.
  - reflexivity.
  - simpl. lia.
  - discriminate.
Defined.

(** C10. When the footer check is the one that fails, the message returned
    says [Line #3], the line number the body error also carries. *)
Theorem footer_error_says_line_3 (c : Commit) :
  violated FooterText c = true ->
  (forall j, rank j < rank FooterText -> violated j c = false) ->
  commitLint c =
    Some (errorMessage (sha c) ++ lit " Line #3 should be `<footer>` with text.") /\
  bodyError (sha c) =
    errorMessage (sha c) ++ lit " Line #3 should be `<body>` (with text).".
Proof.
  intros Hf Hbefore. split; [|reflexivity].
  rewrite commitLint_firstFailure. unfold firstFailure.
  now rewrite (firstViolation_intro c FooterText Hf Hbefore).
Qed.

Lemma footer_error_says_line_3_witness :
  let c := mkCommit (Str (lit "abc"))
             (Str (text ["fix(core): bug"; ""; "fixes an issue"; ""; "---"]%string)) in
  commitLint c =
    Some (errorMessage (sha c) ++ lit " Line #3 should be `<footer>` with text.") /\
  bodyError (sha c) =
    errorMessage (sha c) ++ lit " Line #3 should be `<body>` (with text).".
Proof.
  intros c. apply (footer_error_says_line_3 c).
  - reflexivity.
  - intros [] H; simpl in H; try lia; reflexivity.
Defined.

Lemma no_violation (c : Commit) :
  firstViolation c = None -> commitLint c = None.
Proof.
  intros H. rewrite commitLint_firstFailure. unfold firstFailure. now rewrite H.
Qed.

(** C3, as the code has it. A message of the full conventional shape is
    valid, where the scope holds no line terminator and the subject does not
    start with one: the [.] of the header pattern stands for any character
    but a line feed, a carriage return, U+2028 and U+2029. *)
Theorem conventional_message_is_valid (c : Commit) (m : jsstring) :
  msg c = Str m ->
  conventional dot m ->
  commitLint c = None.
Proof.
  intros Hm (header & body & rest & Hlines & Hh & Hbody & Hrest).
  assert (Hmatch : matches headerPattern m = true).
  { apply header_spec. unfold lines in Hlines.
    destruct (split_prefix _ _ _ _ Hlines) as (tail & ->).
    now apply HeaderForm_app. }
  destruct (passes_header c m Hm Hmatch) as (Ht & E0 & E1).
  apply no_violation. unfold firstViolation, checks. cbn [find].
  rewrite E0, E1. unfold violated. rewrite Ht. unfold line.
  rewrite Hlines. cbn [nth jsstring_eqb negb]. rewrite Hbody, !andb_false_r.
  cbn [negb].
  destruct Hrest as [->|[->|(footer & more & -> & Hfooter)]];
    cbn [nth length jsstring_eqb negb]; try reflexivity.
  now rewrite Hfooter, !andb_false_r.
Qed.

(** The example of the specification: header, blank line, body. *)
Lemma conventional_message_is_valid_witness :
  commitLint
    (mkCommit (Str (lit "abc"))
       (Str (text ["fix(core): bug"; ""; "fixes an issue"]%string))) = None.
Proof.
  apply (conventional_message_is_valid _
           (text ["fix(core): bug"; ""; "fixes an issue"]%string)).
  - reflexivity.
  - exists (lit "fix(core): bug"), (lit "fixes an issue"), [].
    split; [reflexivity|]. split; [|split; [reflexivity|now left]].
    apply (HeaderScoped dot (lit "fix") (lit "core") 98%N (lit "ug")).
    + unfold isType. simpl. tauto.
    + discriminate.
    + reflexivity.
    + reflexivity.
Defined.

(** C3 as stated fails when a subject of arbitrary characters starts with a
    carriage return. *)
Lemma conventional_message_with_CR_subject_is_refused :
  ~ (forall (c : Commit) (m : jsstring),
        msg c = Str m -> conventional anyChar m -> commitLint c = None).
Proof.
  intros H.
  pose (m := lit "fix(core): " ++ CR :: lit "bug"
             ++ LF :: LF :: lit "fixes an issue").
  specialize (H (mkCommit (Str (lit "abc")) (Str m)) m eq_refl).
  assert (Hc : conventional anyChar m).
  { exists (lit "fix(core): " ++ CR :: lit "bug"), (lit "fixes an issue"), [].
    split; [reflexivity|]. split; [|split; [reflexivity|now left]].
    apply (HeaderScoped anyChar (lit "fix") (lit "core") CR (lit "bug")).
    - unfold isType. simpl. tauto.
    - discriminate.
    - reflexivity.
    - reflexivity. }
  specialize (H Hc). discriminate H.
Qed.

(** C4, as the code has it. A single-line message made of a type tag, an
    optional scope in parentheses of at least one character, [: ] and at
    least one subject character is valid, where the scope holds no line
    terminator and the subject does not start with one. *)
Theorem header_only_message_is_valid (c : Commit) (m : jsstring) :
  msg c = Str m ->
  singleLine m ->
  HeaderForm dot m ->
  commitLint c = None.
Proof.
  intros Hm Hsingle Hh.
  assert (Hmatch : matches headerPattern m = true) by now apply header_spec.
  destruct (passes_header c m Hm Hmatch) as (Ht & E0 & E1).
  apply no_violation. unfold firstViolation, checks. cbn [find].
  rewrite E0, E1. unfold violated. rewrite Ht.
  unfold singleLine in Hsingle. now rewrite Hsingle.
Qed.

Lemma header_only_message_is_valid_witness :
  commitLint (mkCommit (Str (lit "abc")) (Str (lit "feat(core): add x"))) = None.
Proof.
  apply (header_only_message_is_valid _ (lit "feat(core): add x")).
  - reflexivity.
  - reflexivity.
  - apply (HeaderScoped dot (lit "feat") (lit "core") 97%N (lit "dd x")).
    + unfold isType. simpl. tauto.
    + discriminate.
    + reflexivity.
    + reflexivity.
Defined.

(** C4 as stated fails when the one subject character is a carriage
    return. *)
Lemma header_only_message_with_CR_subject_is_refused :
  ~ (forall (c : Commit) (m : jsstring),
        msg c = Str m -> singleLine m -> HeaderForm anyChar m ->
        commitLint c = None).
Proof.
  intros H.
  pose (m := lit "feat: " ++ [CR]).
  specialize (H (mkCommit (Str (lit "abc")) (Str m)) m eq_refl eq_refl).
  assert (Hh : HeaderForm anyChar m).
  { apply (HeaderPlain anyChar (lit "feat") CR []).
    - unfold isType. simpl. tauto.
    - reflexivity. }
  specialize (H Hh). discriminate H.
Qed.

(** C5. A non-empty one-line message whose leading type tag is not one of
    the fixed set gets the line-1 header error. *)
Theorem unknown_type_is_refused (c : Commit) (m : jsstring) :
  msg c = Str m ->
  m <> [] ->
  singleLine m ->
  ~ isType (leadingTag m) ->
  commitLint c = Some (headerError (sha c)).
Proof.
  intros Hm Hne _ Htag.
  assert (Hmatch : matches headerPattern m = false).
  { destruct (matches headerPattern m) eqn:E; [|reflexivity].
    apply header_spec in E. apply HeaderForm_leadingTag in E. contradiction. }
  rewrite commitLint_firstFailure. unfold firstFailure.
  rewrite (firstViolation_intro c HeaderFormat); [reflexivity| |].
  - unfold violated, messageText. now rewrite Hm, header_line0, Hmatch.
  - intros [] H; simpl in H; try lia.
    unfold violated. rewrite Hm. now destruct m.
Qed.

Lemma isType_decide (t : jsstring) :
  existsb (jsstring_eqb t) (map lit types) = false -> ~ isType t.
Proof.
  intros H Ht. unfold isType in Ht.
  assert (E : existsb (jsstring_eqb t) (map lit types) = true).
  { apply existsb_exists. exists t. split; [trivial|now apply jsstring_eqb_eq]. }
  congruence.
Qed.

(** An unknown tag, a tag in the wrong case and a tag with a letter too
    many. *)
Lemma unknown_type_is_refused_witness :
  let unknown := mkCommit (Str (lit "abc")) (Str (lit "unknown: thing")) in
  let upper := mkCommit (Str (lit "abc")) (Str (lit "Feat: x")) in
  let longer := mkCommit (Str (lit "abc")) (Str (lit "feats: x")) in
  commitLint unknown = Some (headerError (sha unknown)) /\
  commitLint upper = Some (headerError (sha upper)) /\
  commitLint longer = Some (headerError (sha longer)).
Proof.
  intros unknown upper longer. split; [|split].
  - apply (unknown_type_is_refused unknown (lit "unknown: thing"));
      [reflexivity|discriminate|reflexivity|now apply isType_decide].
  - apply (unknown_type_is_refused upper (lit "Feat: x"));
      [reflexivity|discriminate|reflexivity|now apply isType_decide].
  - apply (unknown_type_is_refused longer (lit "feats: x"));
      [reflexivity|discriminate|reflexivity|now apply isType_decide].
Defined.

(** C7. A commit whose message is [undefined], [null] or the empty string
    gets the no-commit-message error, whatever its id; this check comes
    before all the others. *)
Theorem missing_message_is_refused (c : Commit) :
  msg c = Undefined \/ msg c = Null \/ msg c = Str [] ->
  commitLint c = Some (noMessageError (sha c)) /\
  firstViolation c = Some NoMessage /\
  noMessageError (sha c) =
    lit "Commit " ++ ToString (sha c) ++ lit " has no commit message".
Proof.
  intros H.
  assert (Hb : ToBoolean (msg c) = false)
    by (destruct H as [->|[->| ->]]; reflexivity).
  split; [|split].
  - rewrite commitLint_unfold. now rewrite Hb.
  - unfold firstViolation, checks, violated. cbn [find]. now rewrite Hb.
  - unfold noMessageError, commitIdentificator. now rewrite <- app_assoc.
Qed.

Lemma missing_message_is_refused_witness :
  let absent := mkCommit (Str (lit "abc")) Undefined in
  let null := mkCommit Null Null in
  let empty := mkCommit Undefined (Str []) in
  commitLint absent = Some (lit "Commit abc has no commit message") /\
  commitLint null = Some (lit "Commit null has no commit message") /\
  commitLint empty = Some (lit "Commit undefined has no commit message").
Proof.
  intros absent null empty. split; [|split].
  - apply (missing_message_is_refused absent). now left.
  - apply (missing_message_is_refused null). right. now left.
  - apply (missing_message_is_refused empty). right. now right.
Defined.

(** *** The glue *)

Lemma map_from_ignores {A B : Type} (f : A -> B) (whole : list A) :
  forall a i, map_from (fun x _ _ => f x) whole i a = map f a.
Proof.
  induction a as [|x a IH]; intros i; simpl; [reflexivity|].
  now rewrite IH.
Qed.

Lemma Array_map_ignores {A B : Type} (f : A -> B) (a : list A) :
  Array_map (fun x _ _ => f x) a = map f a.
Proof. apply map_from_ignores. Qed.

Lemma forEach_fail (errors : list (option jsstring)) :
  forall log,
    fold_left
      (fun log error => if defined error
                        then match error with
                             | Some e => fail e log
                             | None => log
                             end
                        else log)
      errors log
    = log ++ definedResults errors.
Proof.
  induction errors as [|[e|] errors IH]; intros log; simpl.
  - now rewrite app_nil_r.
  - rewrite IH. unfold fail. now rewrite <- app_assoc.
  - apply IH.
Qed.

Lemma none_defined (errors : list (option jsstring)) :
  existsb defined errors = false -> definedResults errors = [].
Proof.
  induction errors as [|[e|] errors IH]; simpl; trivial; discriminate.
Qed.

Lemma definedResults_app (a b : list (option jsstring)) :
  definedResults (a ++ b) = definedResults a ++ definedResults b.
Proof. apply flat_map_app. Qed.

Lemma definedResults_cons (e : option jsstring) (l : list (option jsstring)) :
  definedResults (e :: l) = definedResults [e] ++ definedResults l.
Proof. apply (definedResults_app [e] l). Qed.

(** C8. The failures emitted are exactly the results of [commitLint] over
    the list that are not [undefined], in order; each result is that of the
    commit's own id and message, wherever the commit stands in the list and
    whatever the other commits are. *)
Theorem failures_are_the_defined_results
        (github_commits : list GitHubCommit) (log : failures) :
  commitErrors github_commits =
    map (fun obj => commitLint (simpleObject obj)) github_commits /\
  reportCommitErrors github_commits log =
    log ++ definedResults (map commitLint (commits github_commits)) /\
  (forall e,
      In e (definedResults (commitErrors github_commits)) <->
      exists obj, In obj github_commits /\
                  commitLint (simpleObject obj) = Some e) /\
  (forall before obj after,
      reportCommitErrors (before ++ obj :: after) log =
      reportCommitErrors before log
      ++ definedResults [commitLint (simpleObject obj)]
      ++ reportCommitErrors after []).
Proof.
  assert (Hcommits : forall l, commits l = map simpleObject l).
  { intros l. apply (Array_map_ignores simpleObject). }
  assert (Herrors : forall l,
             commitErrors l = map (fun obj => commitLint (simpleObject obj)) l).
  { intros l. unfold commitErrors.
    rewrite (Array_map_ignores commitLint), Hcommits. apply map_map. }
  assert (Hreport : forall l lg,
             reportCommitErrors l lg = lg ++ definedResults (commitErrors l)).
  { intros l lg. unfold reportCommitErrors.
    destruct (existsb defined (commitErrors l)) eqn:E.
    - apply forEach_fail.
    - now rewrite (none_defined _ E), app_nil_r. }
  split; [apply Herrors|]. split; [|split].
  - rewrite Hreport. unfold commitErrors.
    now rewrite (Array_map_ignores commitLint).
  - intros e. rewrite Herrors. unfold definedResults.
    rewrite in_flat_map. split.
    + intros (r & Hr & He). apply in_map_iff in Hr.
      destruct Hr as (obj & <- & Hobj). exists obj. split; [trivial|].
      destruct (commitLint (simpleObject obj)); [|destruct He].
      destruct He as [->|[]]. reflexivity.
    + intros (obj & Hobj & He). exists (Some e). split; [|now left].
      rewrite <- He. now apply (in_map (fun o => commitLint (simpleObject o))).
  - intros before obj after. rewrite !Hreport, !Herrors.
    rewrite map_app, definedResults_app. cbn [map].
    rewrite definedResults_cons. cbn [app].
    now rewrite <- !app_assoc.
Qed.

(** C9. [commitLint] is deterministic and has no hidden state. The only
    mutable state in reach is the [lastIndex] of its two RegExp objects:
    whatever values it holds, the result is that of [commitLint]; a run
    leaves the fresh objects as they were; and a second run, on the objects
    as the first run leaves them, gives the same result as the first. *)
Theorem commitLint_is_pure (c : Commit) (i j : nat) :
  fst (commitLint_with (set_lastIndex headerRegex i)
                       (set_lastIndex hasTextRegex j) c)
  = commitLint c /\
  snd (commitLint_with headerRegex hasTextRegex c)
  = (headerRegex, hasTextRegex) /\
  (let first := commitLint_with headerRegex hasTextRegex c in
   let second := commitLint_with (fst (snd first)) (snd (snd first)) c in
   fst second = fst first).
Proof.
  split; [|split].
  - rewrite commitLint_with_flagless
      by (apply set_lastIndex_flagless, literal_flagless).
    reflexivity.
  - rewrite commitLint_with_flagless by apply literal_flagless. reflexivity.
  - cbv zeta.
    rewrite (commitLint_with_flagless headerRegex hasTextRegex c)
      by apply literal_flagless.
    reflexivity.
Qed.

End Properties.

(** ** [replace] with the [g] flag *)

Section Replace.

(** [exec_span] is [exec] with the start of the match kept. *)
Lemma search_span_end (r : regex) :
  forall s i, option_map snd (search_span r i s) = search r i s.
Proof.
  induction s as [|c t IH]; intros i; cbn [search_span search];
    destruct (rmatch r _); trivial.
Qed.

Lemma exec_span_exec (R : RegExp) (str : jsstring) :
  (option_map snd (fst (exec_span R str)), snd (exec_span R str)) = exec R str.
Proof.
  unfold exec_span, exec.
  destruct (length str <? _); [reflexivity|].
  destruct (sticky R).
  - destruct (rmatch (pattern R) _); reflexivity.
  - rewrite <- search_span_end.
    destruct (search_span (pattern R) _ _) as [[b e]|]; reflexivity.
Qed.

(** A match lies between the index the search starts at and the end. *)
Lemma rmatch_end (r : regex) (i : nat) (s : jsstring) (y : state) (l : list state) :
  rmatch r (i, s) = y :: l -> i <= fst y <= i + length s.
Proof.
  intros E.
  assert (Hy : In y (rmatch r (i, s))) by (rewrite E; now left).
  apply rmatch_spec in Hy. destruct Hy as (w & -> & -> & _).
  rewrite length_app. lia.
Qed.

Lemma search_span_bounds (r : regex) :
  forall s i b e,
    search_span r i s = Some (b, e) -> i <= b /\ b <= e /\ e <= i + length s.
Proof.
  induction s as [|c t IH]; intros i b e; cbn [search_span].
  - destruct (rmatch r _) as [|y l] eqn:E; [discriminate|].
    intros H. injection H as <- <-. apply rmatch_end in E. simpl in *. lia.
  - destruct (rmatch r _) as [|y l] eqn:E.
    + intros H. apply IH in H. simpl. lia.
    + intros H. injection H as <- <-. apply rmatch_end in E. simpl in *. lia.
Qed.

Lemma exec_span_global (R : RegExp) (str : jsstring) (b e : nat) (R' : RegExp) :
  global R = true ->
  exec_span R str = (Some (b, e), R') ->
  lastIndex R <= b /\ b <= e /\ e <= length str /\ R' = set_lastIndex R e.
Proof.
  intros Hg. unfold exec_span. rewrite Hg. cbn [orb].
  destruct (length str <? lastIndex R) eqn:Elen; [discriminate|].
  apply Nat.ltb_ge in Elen.
  assert (Hlen : lastIndex R + length (skipn (lastIndex R) str) = length str)
    by (rewrite length_skipn; lia).
  destruct (sticky R).
  - destruct (rmatch (pattern R) _) as [|y l] eqn:E; [discriminate|].
    intros H. injection H as <- <- <-. apply rmatch_end in E.
    repeat split; lia.
  - destruct (search_span (pattern R) _ _) as [[b' e']|] eqn:E; [|discriminate].
    intros H. injection H as <- <- <-. apply search_span_bounds in E.
    repeat split; lia.
Qed.

Lemma matchAll_S (fuel : nat) (R : RegExp) (str : jsstring) :
  matchAll (S fuel) R str =
  match exec_span R str with
  | (None, R') => ([], R')
  | (Some (b, e), R') =>
      if global R' then
        let R'' := if e =? b
                   then set_lastIndex R' (S (lastIndex R'))
                   else R' in
        let '(rest, Rend) := matchAll fuel R'' str in
        ((b, e) :: rest, Rend)
      else ([(b, e)], R')
  end.
Proof. reflexivity. Qed.

(** The loop ends: past [length str + 2 - lastIndex] rounds, more fuel
    changes nothing. *)
Lemma matchAll_fuel (str : jsstring) :
  forall fuel R,
    global R = true ->
    lastIndex R <= length str + 1 ->
    length str + 2 <= fuel + lastIndex R ->
    matchAll (S fuel) R str = matchAll fuel R str.
Proof.
  induction fuel as [|fuel IH]; intros R Hg Hli Hfuel; [lia|].
  rewrite (matchAll_S (S fuel) R), (matchAll_S fuel R).
  destruct (exec_span R str) as [[[b e]|] R'] eqn:E; [|reflexivity].
  destruct (exec_span_global R str b e R' Hg E) as (Hb & He & Hlen & ->).
  cbn [global set_lastIndex]. rewrite Hg. cbv zeta.
  rewrite IH; [reflexivity| | |].
  - now destruct (e =? b).
  - destruct (e =? b); cbn [lastIndex set_lastIndex]; lia.
  - destruct (e =? b) eqn:Eeb; cbn [lastIndex set_lastIndex]; [lia|].
    apply Nat.eqb_neq in Eeb. lia.
Qed.

Section SingleChar.

Variable r : regex.
Variable p : class.
Hypothesis r_single : singleChar r p.

Lemma search_span_single :
  forall t k, search_span r k t = hd_error (occurrences p k t).
Proof.
  induction t as [|c t IH]; intros k; cbn [search_span occurrences];
    rewrite r_single; [reflexivity|].
  destruct (p c); [reflexivity|apply IH].
Qed.

Lemma occurrences_head :
  forall t k b e rest,
    occurrences p k t = (b, e) :: rest ->
    e = S b /\ k <= b /\ b < k + length t /\
    rest = occurrences p (S b) (skipn (S b - k) t).
Proof.
  induction t as [|c t IH]; intros k b e rest; cbn [occurrences];
    [discriminate|].
  destruct (p c).
  - intros H. injection H as <- <- <-.
    replace (S k - k) with 1 by lia. simpl. repeat split; lia.
  - intros H. apply IH in H. destruct H as (-> & Hk & Hb & ->).
    replace (S b - k) with (S (S b - S k)) by lia.
    simpl. repeat split; lia.
Qed.

Lemma matchAll_single (s : jsstring) :
  forall fuel k,
    k <= length s ->
    length s + 2 <= fuel + k ->
    fst (matchAll fuel (mkRegExp r true false k) s)
    = occurrences p k (skipn k s).
Proof.
  induction fuel as [|fuel IH]; intros k Hk Hfuel; [lia|].
  cbn [matchAll]. unfold exec_span. cbn [global sticky lastIndex pattern orb].
  rewrite (proj2 (Nat.ltb_ge _ _)) by lia.
  rewrite search_span_single.
  destruct (occurrences p k (skipn k s)) as [|[b e] rest] eqn:E;
    [reflexivity|].
  cbn [hd_error set_lastIndex global].
  apply occurrences_head in E. destruct E as (-> & Hb & Hlen & ->).
  rewrite length_skipn in Hlen.
  rewrite (proj2 (Nat.eqb_neq (S b) b)) by lia.
  cbn [pattern sticky].
  specialize (IH (S b)).
  destruct (matchAll fuel _ s) as [rest' Rend]. cbn [fst] in *.
  rewrite IH by lia. rewrite skipn_skipn.
  now replace (S b - k + k) with (S b) by lia.
Qed.

Lemma substitute_single (replacement : jsstring) :
  forall t pre n,
    n <= length pre ->
    substitute (pre ++ t) (occurrences p (length pre) t) replacement n
    = skipn n pre ++ replaceEach p replacement t.
Proof.
  induction t as [|c t IH]; intros pre n Hn; cbn [occurrences substitute].
  - rewrite app_nil_r. unfold replaceEach. simpl. now rewrite app_nil_r.
  - assert (Hshift : pre ++ c :: t = (pre ++ [c]) ++ t)
      by now rewrite <- app_assoc.
    assert (Hlen : S (length pre) = length (pre ++ [c]))
      by (rewrite length_app; simpl; lia).
    unfold replaceEach. cbn [flat_map]. fold (replaceEach p replacement t).
    destruct (p c).
    + cbn [substitute]. rewrite (proj2 (Nat.leb_le _ _) Hn).
      rewrite Hshift, Hlen, IH by lia.
      rewrite skipn_all, <- Hshift. cbn [app].
      rewrite skipn_app.
      replace (n - length pre) with 0 by lia. cbn [skipn].
      rewrite firstn_app, length_skipn.
      replace (length pre - n - (length pre - n)) with 0 by lia.
      cbn [firstn]. rewrite app_nil_r.
      rewrite firstn_all2 by (rewrite length_skipn; lia).
      reflexivity.
    + rewrite Hshift, Hlen, IH by (rewrite length_app; simpl; lia).
      rewrite skipn_app.
      replace (n - length pre) with 0 by lia. cbn [skipn].
      now rewrite <- app_assoc.
Qed.

(** Replacing a one-character pattern with the [g] flag replaces every
    character of the class and keeps the others, in order. *)
Lemma replace_single (s replacement : jsstring) :
  fst (replace (literal_g r) s replacement) = replaceEach p replacement s.
Proof.
  unfold replace, literal_g. cbn [global set_lastIndex pattern sticky].
  pose proof (matchAll_single s (S (S (length s))) 0) as H.
  destruct (matchAll _ _ s) as [results R']. cbn [fst] in *.
  rewrite H by lia. cbn [skipn].
  apply (substitute_single replacement s [] 0). simpl. lia.
Qed.

End SingleChar.

End Replace.

(** ** [removeAtSymbols] *)

Section RemoveAtSymbols.

Lemma at_pattern_single : singleChar (chars "@") (char "@").
Proof.
  intros k [|c t]; [reflexivity|].
  unfold chars, char. simpl. now destruct (N.eqb c 64).
Qed.

Lemma replaceEach_nil (p : class) (s : jsstring) :
  replaceEach p [] s = filter (fun c => negb (p c)) s.
Proof.
  unfold replaceEach. induction s as [|c s IH]; [reflexivity|].
  simpl. rewrite IH. now destruct (p c).
Qed.

Lemma removeAtSymbols_filter (s : jsstring) :
  removeAtSymbols s = filter (fun c => negb (char "@" c)) s.
Proof.
  unfold removeAtSymbols.
  rewrite (replace_single (chars "@") (char "@") at_pattern_single).
  apply replaceEach_nil.
Qed.

Lemma hasAt_app (a b : jsstring) : hasAt (a ++ b) = hasAt a || hasAt b.
Proof. apply existsb_app. Qed.

Lemma removeAtSymbols_hasAt (s : jsstring) : hasAt (removeAtSymbols s) = false.
Proof.
  rewrite removeAtSymbols_filter. unfold hasAt.
  induction s as [|c s IH]; [reflexivity|].
  simpl. destruct (char "@" c) eqn:E; simpl; [trivial|]. now rewrite E.
Qed.

Lemma removeAtSymbols_app (a b : jsstring) :
  removeAtSymbols (a ++ b) = removeAtSymbols a ++ removeAtSymbols b.
Proof. rewrite !removeAtSymbols_filter. apply filter_app. Qed.

Lemma removeAtSymbols_clean (s : jsstring) :
  hasAt s = false -> removeAtSymbols s = s.
Proof.
  rewrite removeAtSymbols_filter. unfold hasAt.
  induction s as [|c s IH]; [reflexivity|].
  simpl. destruct (char "@" c); [discriminate|]. simpl.
  intros H. now rewrite IH.
Qed.

(** X1. [removeAtSymbols] removes every [@] and keeps every other
    character, in order: the result is the text filtered of its [@]. *)
Theorem removeAtSymbols_removes_exactly_the_at_signs (s : jsstring) :
  removeAtSymbols s = filter (fun c => negb (N.eqb c 64)) s /\
  length (removeAtSymbols s) + count_occ N.eq_dec s 64%N = length s.
Proof.
  split; [apply removeAtSymbols_filter|].
  rewrite removeAtSymbols_filter.
  induction s as [|c s IH]; [reflexivity|].
  simpl. unfold char at 1. simpl.
  destruct (N.eq_dec c 64) as [->|Hc].
  - simpl. lia.
  - rewrite (proj2 (N.eqb_neq c 64) Hc). simpl. lia.
Qed.

(** X2. The result of [removeAtSymbols] holds no [@]; a text without [@]
    comes back unchanged, so applying it twice is applying it once. *)
Theorem removeAtSymbols_is_idempotent (s : jsstring) :
  hasAt (removeAtSymbols s) = false /\
  removeAtSymbols (removeAtSymbols s) = removeAtSymbols s /\
  (hasAt s = false <-> removeAtSymbols s = s).
Proof.
  split; [apply removeAtSymbols_hasAt|]. split.
  - apply removeAtSymbols_clean, removeAtSymbols_hasAt.
  - split; [apply removeAtSymbols_clean|].
    intros H. rewrite <- H. apply removeAtSymbols_hasAt.
Qed.

Lemma removeAtSymbols_joinWith (sep : jsstring) (names : list jsstring) :
  hasAt sep = false ->
  removeAtSymbols (joinWith sep names)
  = joinWith sep (map removeAtSymbols names).
Proof.
  intros Hsep.
  induction names as [|name [|next rest] IH]; try reflexivity.
  change (joinWith sep (name :: next :: rest))
    with (name ++ sep ++ joinWith sep (next :: rest)).
  rewrite !removeAtSymbols_app, IH, (removeAtSymbols_clean sep Hsep).
  reflexivity.
Qed.

(** X3. [removeAtSymbols] works piece by piece: on a concatenation, and so
    on names joined by [", "], where it is the names without their [@]
    joined again. *)
Theorem removeAtSymbols_distributes (names : list jsstring) :
  (forall a b, removeAtSymbols (a ++ b) = removeAtSymbols a ++ removeAtSymbols b) /\
  removeAtSymbols (joinWith (lit ", ") names)
  = joinWith (lit ", ") (map removeAtSymbols names).
Proof.
  split; [apply removeAtSymbols_app|].
  now apply removeAtSymbols_joinWith.
Qed.

End RemoveAtSymbols.

(** ** The dependency reports *)

Section Reports.

Lemma joinWith_cons (sep name : jsstring) (rest : list jsstring) :
  joinWith sep (name :: rest) = name ++ flat_map (fun n => sep ++ n) rest.
Proof.
  revert name. induction rest as [|next rest IH]; intros name.
  - simpl. now rewrite app_nil_r.
  - change (joinWith sep (name :: next :: rest))
      with (name ++ sep ++ joinWith sep (next :: rest)).
    rewrite IH. simpl. now rewrite <- app_assoc.
Qed.

Lemma forEach_from_text (names : list jsstring) :
  forall text,
    text <> [] ->
    fold_left
      (fun dependenciesString newDependency =>
         if negb (ToBoolean dependenciesString) then Str newDependency
         else Str (ToString dependenciesString ++ lit ", " ++ newDependency))
      names (Str text)
    = Str (text ++ flat_map (fun n => lit ", " ++ n) names).
Proof.
  induction names as [|name names IH]; intros text Htext.
  - simpl. now rewrite app_nil_r.
  - cbn [fold_left flat_map]. destruct text as [|c text]; [congruence|].
    cbn [ToBoolean negb ToString]. rewrite IH by discriminate.
    now rewrite <- !app_assoc.
Qed.

Lemma dependenciesString_join (first : jsstring) (rest : list jsstring) :
  first <> [] ->
  dependenciesString (first :: rest) = Str (joinWith (lit ", ") (first :: rest)).
Proof.
  intros H. unfold dependenciesString. cbn [fold_left ToBoolean negb].
  rewrite forEach_from_text by trivial. now rewrite joinWith_cons.
Qed.

Lemma dependenciesString_empty_first (names : list jsstring) :
  dependenciesString ([] :: names) =
  match names with
  | [] => Str []
  | _ => dependenciesString names
  end.
Proof. now destruct names. Qed.

Lemma forEach_is_text (names : list jsstring) :
  forall text, exists text',
    fold_left
      (fun dependenciesString newDependency =>
         if negb (ToBoolean dependenciesString) then Str newDependency
         else Str (ToString dependenciesString ++ lit ", " ++ newDependency))
      names (Str text)
    = Str text'.
Proof.
  induction names as [|name names IH]; intros text; [now exists text|].
  cbn [fold_left]. destruct (negb (ToBoolean (Str text))); apply IH.
Qed.

Lemma dependenciesString_is_text (names : list jsstring) :
  names <> [] -> exists text, dependenciesString names = Str text.
Proof.
  destruct names as [|name names]; [congruence|]. intros _.
  unfold dependenciesString. cbn [fold_left ToBoolean negb].
  apply forEach_is_text.
Qed.

Lemma NumberToString_hasAt (n : nat) : hasAt (NumberToString n) = false.
Proof.
  unfold NumberToString. generalize (Nat.to_uint n). intros d.
  induction d; simpl; trivial.
Qed.

(** What a check that reports a list of names does. *)
Lemma report_names (opening : jsstring) (names : list jsstring) (log : messages) :
  names <> [] ->
  exists text,
    report opening (dependenciesString names) log
    = Some (log ++ [opening ++ text ++ lit "."]) /\
    hasAt text = false.
Proof.
  intros H. destruct (dependenciesString_is_text names H) as (text & ->).
  exists (removeAtSymbols text). split; [reflexivity|].
  apply removeAtSymbols_hasAt.
Qed.

Lemma whenChanged_report
      (section : PackageDiff -> option JSONDiffValue)
      (names : JSONDiffValue -> list jsstring)
      (opening : JSONDiffValue -> jsstring)
      (packageDiff : option PackageDiff) (log : messages) :
  (forall changes, hasAt (opening changes) = false) ->
  let result :=
    whenChanged packageDiff section
      (fun changes log =>
         if 0 <? length (names changes)
         then report (opening changes) (dependenciesString (names changes)) log
         else Some log) log in
  result = Some log \/
  exists text, result = Some (log ++ [text]) /\ hasAt text = false.
Proof.
  intros Hopening result. subst result. unfold whenChanged.
  destruct packageDiff as [diff|]; [|now left].
  destruct (section diff) as [changes|]; [|now left].
  destruct (0 <? length (names changes)) eqn:E; [|now left].
  right. apply Nat.ltb_lt in E.
  destruct (report_names (opening changes) (names changes) log)
    as (text & -> & Htext).
  { destruct (names changes); [simpl in E; lia|discriminate]. }
  exists (opening changes ++ text ++ lit "."). split; [reflexivity|].
  now rewrite !hasAt_app, Hopening, Htext.
Qed.

(** Each scheduled check either leaves the messages as they are or adds
    one message, which holds no [@]; it never throws. *)
Lemma scheduled_checks (packageDiff : option PackageDiff) (log : messages) :
  Forall
    (fun check =>
       check packageDiff log = Some log \/
       exists text,
         check packageDiff log = Some (log ++ [text]) /\ hasAt text = false)
    scheduled.
Proof.
  unfold scheduled. repeat apply Forall_cons; [..|apply Forall_nil].
  - apply (whenChanged_report dependencies added
             (fun changes =>
                lit "There "
                ++ (if length (added changes) =? 1 then lit "is" else lit "are")
                ++ lit " " ++ NumberToString (length (added changes))
                ++ lit " new "
                ++ (if length (added changes) =? 1
                    then lit "dependency" else lit "dependencies")
                ++ lit " added in this PR: ")).
    intros changes. rewrite ?hasAt_app, ?NumberToString_hasAt.
    case_conditions.
  - apply (whenChanged_report dependencies removed
             (fun changes =>
                lit "There is " ++ NumberToString (length (removed changes))
                ++ lit " removed "
                ++ (if length (removed changes) =? 1
                    then lit "dependency" else lit "dependencies")
                ++ lit " in this PR: ")).
    intros changes. rewrite ?hasAt_app, ?NumberToString_hasAt.
    case_conditions.
  - apply (whenChanged_report dependencies updatedDependencies
             (fun changes =>
                lit "The version of "
                ++ NumberToString (length (updatedDependencies changes))
                ++ lit " "
                ++ (if length (updatedDependencies changes) =? 1
                    then lit "dependency" else lit "dependencies")
                ++ lit " have been updated in this PR: ")).
    intros changes. rewrite ?hasAt_app, ?NumberToString_hasAt.
    case_conditions.
  - apply (whenChanged_report devDependencies added
             (fun changes =>
                lit "There "
                ++ (if length (added changes) =? 1 then lit "is" else lit "are")
                ++ lit " " ++ NumberToString (length (added changes))
                ++ lit " new dev"
                ++ (if length (added changes) =? 1
                    then lit "Dependency" else lit "Dependencies")
                ++ lit " added in this PR: ")).
    intros changes. rewrite ?hasAt_app, ?NumberToString_hasAt.
    case_conditions.
  - apply (whenChanged_report devDependencies removed
             (fun changes =>
                lit "There "
                ++ (if length (removed changes) =? 1 then lit "is" else lit "are")
                ++ lit " " ++ NumberToString (length (removed changes))
                ++ lit " removed dev"
                ++ (if length (removed changes) =? 1
                    then lit "Dependency" else lit "Dependencies")
                ++ lit " in this PR: ")).
    intros changes. rewrite ?hasAt_app, ?NumberToString_hasAt.
    case_conditions.
  - apply (whenChanged_report devDependencies updatedDependencies
             (fun changes =>
                lit "The version of "
                ++ NumberToString (length (updatedDependencies changes))
                ++ lit " dev"
                ++ (if length (updatedDependencies changes) =? 1
                    then lit "Dependency" else lit "Dependencies")
                ++ lit " have been updated in this PR: ")).
    intros changes. rewrite ?hasAt_app, ?NumberToString_hasAt.
    case_conditions.
Qed.

(** X4. When the first name is not empty the loop joins the names with
    [", "], as [join] would, and the text the message shows is the names
    without their [@], joined. *)
Theorem names_are_joined_with_commas (first : jsstring) (rest : list jsstring) :
  first <> [] ->
  dependenciesString (first :: rest)
  = Str (joinWith (lit ", ") (first :: rest)) /\
  removeAtSymbols_call (dependenciesString (first :: rest))
  = Some (joinWith (lit ", ") (map removeAtSymbols (first :: rest))).
Proof.
  intros H. rewrite (dependenciesString_join first rest H). split; [reflexivity|].
  cbn [removeAtSymbols_call].
  now rewrite removeAtSymbols_joinWith.
Qed.

Lemma names_are_joined_with_commas_witness :
  dependenciesString [lit "@babel/core"; lit "lodash"]
  = Str (lit "@babel/core, lodash") /\
  removeAtSymbols_call (dependenciesString [lit "@babel/core"; lit "lodash"])
  = Some (joinWith (lit ", ")
            (map removeAtSymbols [lit "@babel/core"; lit "lodash"])).
Proof.
  apply (names_are_joined_with_commas (lit "@babel/core") [lit "lodash"]).
  discriminate.
Defined.

(** X5. An empty first name is dropped by the loop: the test [!text] takes
    the empty text for no text yet, so the result is not what [join] gives. *)
Theorem empty_first_name_is_dropped (second : jsstring) (rest : list jsstring) :
  second <> [] ->
  dependenciesString ([] :: second :: rest)
  = Str (joinWith (lit ", ") (second :: rest)) /\
  dependenciesString ([] :: second :: rest)
  <> Str (joinWith (lit ", ") ([] :: second :: rest)).
Proof.
  intros H. rewrite dependenciesString_empty_first.
  rewrite (dependenciesString_join second rest H). split; [reflexivity|].
  change (joinWith (lit ", ") ([] :: second :: rest))
    with (lit ", " ++ joinWith (lit ", ") (second :: rest)).
  intros E. injection E as E.
  apply (f_equal (@length N)) in E. rewrite ?length_app in E.
  simpl in E. lia.
Qed.

Lemma empty_first_name_is_dropped_witness :
  dependenciesString [[]; lit "lodash"] = Str (lit "lodash") /\
  dependenciesString [[]; lit "lodash"]
  <> Str (joinWith (lit ", ") [[]; lit "lodash"]).
Proof.
  apply (empty_first_name_is_dropped (lit "lodash") []). discriminate.
Defined.


(** X7. No message a scheduled check posts holds an [@]: the names and
    versions go through [removeAtSymbols], and the fixed wording and the
    count have none. *)
Theorem scheduled_messages_hold_no_at
        (packageDiff : option PackageDiff) (log : messages) :
  Forall
    (fun check =>
       forall log' text,
         check packageDiff log = Some log' ->
         In text log' -> In text log \/ hasAt text = false)
    scheduled.
Proof.
  eapply Forall_impl; [|apply (scheduled_checks packageDiff log)].
  intros check [H|(text' & H & Hat)] log' text E Hin;
    rewrite H in E; injection E as <-.
  - now left.
  - apply in_app_or in Hin. destruct Hin as [Hin|[<-|[]]]; auto.
Qed.

(** X8. The message for new dependencies: when the first added name is not
    empty it reads [There is 1 new dependency added in this PR: name.] for
    one name and [There are n new dependencies added in this PR: ...] for
    more, with the names stripped of [@] and joined by [", "]. *)
Theorem new_dependencies_message
        (diff : PackageDiff) (changes : JSONDiffValue)
        (first : jsstring) (rest : list jsstring) (log : messages) :
  dependencies diff = Some changes ->
  added changes = first :: rest ->
  first <> [] ->
  checkNewDependencies (Some diff) log =
  Some (log ++
        [lit "There " ++ (match rest with [] => lit "is" | _ => lit "are" end)
         ++ lit " " ++ NumberToString (S (length rest)) ++ lit " new "
         ++ (match rest with
             | [] => lit "dependency"
             | _ => lit "dependencies"
             end)
         ++ lit " added in this PR: "
         ++ joinWith (lit ", ") (map removeAtSymbols (first :: rest))
         ++ lit "."]).
Proof.
  intros Hdeps Hadded Hfirst.
  unfold checkNewDependencies, whenChanged, report.
  rewrite Hdeps, Hadded. cbn [length Nat.ltb Nat.leb].
  rewrite (dependenciesString_join first rest Hfirst).
  cbn [removeAtSymbols_call].
  rewrite removeAtSymbols_joinWith by reflexivity.
  unfold message. rewrite <- !app_assoc.
  now destruct rest.
Qed.

Lemma new_dependencies_message_witness :
  let changes := mkJSONDiffValue (mkObject [] (fun _ => Undefined))
                   (mkObject [] (fun _ => Undefined))
                   [lit "@babel/core"; lit "lodash"] [] in
  checkNewDependencies (Some (mkPackageDiff (Some changes) None)) [] =
  Some [lit "There are 2 new dependencies added in this PR: babel/core, lodash."].
Proof.
  intros changes.
  apply (new_dependencies_message (mkPackageDiff (Some changes) None) changes
           (lit "@babel/core") [lit "lodash"] []).
  - reflexivity.
  - reflexivity.
  - discriminate.
Defined.




Lemma flat_map_nil_iff {A B : Type} (f : A -> list B) (l : list A) :
  flat_map f l = [] <-> forall x, In x l -> f x = [].
Proof.
  induction l as [|a l IH]; cbn [flat_map].
  - split; [intros _ ? []|reflexivity].
  - split.
    + intros H. apply app_eq_nil in H. destruct H as [Ha Hl].
      intros x [<-|Hin]; [trivial|now apply IH].
    + intros H. rewrite (H a (or_introl eq_refl)). apply IH.
      intros x Hx. apply H. now right.
Qed.

Lemma flat_map_length_le {A B : Type} (f : A -> list B) (l : list A) :
  (forall x, length (f x) <= 1) -> length (flat_map f l) <= length l.
Proof.
  intros H. induction l as [|a l IH]; [reflexivity|].
  cbn [flat_map length]. rewrite length_app. specialize (H a). lia.
Qed.


End Reports.

(** ** More on [commitLint] *)

Section Verdicts.

Lemma guard_false_iff (k n : nat) (b : bool) :
  (k <? n) && negb b = false <-> (k < n -> b = true).
Proof.
  destruct (Nat.ltb_spec k n) as [H|H]; simpl.
  - rewrite negb_false_iff. tauto.
  - split; [intros _ ?; lia|reflexivity].
Qed.

Lemma firstViolation_none (c : Commit) :
  firstViolation c = None <-> forall k, violated k c = false.
Proof.
  split.
  - intros H k. apply (find_none _ _ H). unfold checks.
    destruct k; simpl; tauto.
  - intros H. unfold firstViolation, checks. cbn [find]. now rewrite !H.
Qed.

Lemma commitLint_None (c : Commit) :
  commitLint c = None <-> firstViolation c = None.
Proof.
  rewrite commitLint_firstFailure. unfold firstFailure.
  destruct (firstViolation c); simpl; split; congruence.
Qed.

(** X10. The messages [commitLint] accepts, exactly: a non-empty text that
    starts with a header (type tag, optional scope without line terminator,
    [: ] and a character that is no line terminator) and, for each further
    line it has, an empty second line, a third line with a letter or digit,
    an empty fourth line and a fifth line with a letter or digit. *)
Theorem commitLint_accepts_exactly (c : Commit) :
  commitLint c = None <->
  exists m,
    msg c = Str m /\
    HeaderForm dot m /\
    (1 < length (lines m) -> line 1 m = []) /\
    (2 < length (lines m) -> hasAlnum (line 2 m) = true) /\
    (3 < length (lines m) -> line 3 m = []) /\
    (4 < length (lines m) -> hasAlnum (line 4 m) = true).
Proof.
  rewrite commitLint_None, firstViolation_none. split.
  - intros H.
    pose proof (H NoMessage) as H0. cbn [violated] in H0.
    apply negb_false_iff in H0.
    destruct (truthy_message c H0) as (m & Hm & _ & _ & Ht).
    exists m. split; [trivial|].
    pose proof (H HeaderFormat) as H1. pose proof (H Line2Blank) as H2.
    pose proof (H Line3Body) as H3. pose proof (H Line4Blank) as H4.
    pose proof (H FooterText) as H5.
    unfold violated in H1, H2, H3, H4, H5. rewrite Ht in *.
    apply negb_false_iff in H1. rewrite header_line0 in H1.
    apply header_spec in H1.
    rewrite guard_false_iff in H2, H3, H4, H5.
    repeat split; trivial; intros Hlen.
    + now apply jsstring_eqb_eq, H2.
    + now apply jsstring_eqb_eq, H4.
  - intros (m & Hm & Hh & H2 & H3 & H4 & H5) k.
    apply header_spec in Hh.
    destruct (passes_header c m Hm Hh) as (Ht & E0 & E1).
    destruct k; trivial; unfold violated; rewrite Ht;
      apply guard_false_iff; intros Hlen; auto.
    + now apply jsstring_eqb_eq, H2.
    + now apply jsstring_eqb_eq, H4.
Qed.

(** X11. Every error of [commitLint] starts by naming the commit:
    [Commit <sha>]. *)
Theorem errors_name_the_commit (c : Commit) :
  commitLint c = None \/
  exists rest,
    commitLint c = Some (lit "Commit " ++ ToString (sha c) ++ rest).
Proof.
  rewrite commitLint_firstFailure. unfold firstFailure.
  destruct (firstViolation c) as [k|]; [right|now left]. cbn [option_map].
  destruct k;
    unfold reason, noMessageError, headerError, blank2Error, bodyError,
      blank4Error, footerError, errorMessage, commitIdentificator;
    rewrite <- ?app_assoc; eexists; reflexivity.
Qed.

(** X12. The error tells which check failed: [commitLint] returns the
    message of a check exactly when that check is violated and no earlier
    one is. *)
Theorem error_identifies_the_check (c : Commit) (k : check) :
  commitLint c = Some (reason k (sha c)) <->
  violated k c = true /\ forall j, rank j < rank k -> violated j c = false.
Proof.
  rewrite commitLint_firstFailure. unfold firstFailure. split.
  - intros H. apply firstViolation_elim.
    destruct (firstViolation c) as [j|]; [|discriminate H].
    apply reason_Some_injective in H. now subst.
  - intros [Hk Hbefore]. now rewrite (firstViolation_intro c k Hk Hbefore).
Qed.

Lemma line_firstn (k : nat) (m : jsstring) :
  k < 5 -> line k m = nth k (firstn 5 (lines m)) [].
Proof.
  intros H. unfold line. rewrite nth_firstn.
  now rewrite (proj2 (Nat.ltb_lt _ _) H).
Qed.

Lemma guard_firstn (k : nat) (m : jsstring) :
  k < 5 -> (k <? length (lines m)) = (k <? length (firstn 5 (lines m))).
Proof.
  intros H. rewrite length_firstn.
  destruct (Nat.ltb_spec k (length (lines m)));
    destruct (Nat.ltb_spec k (Nat.min 5 (length (lines m)))); trivial; lia.
Qed.

Lemma truthy_firstn (m : jsstring) :
  ToBoolean (Str m) =
  match firstn 5 (lines m) with
  | [[]] => false
  | _ => true
  end.
Proof.
  destruct m as [|c t]; [reflexivity|].
  unfold lines. cbn [split ToBoolean].
  destruct (N.eqb c LF).
  - destruct (split LF t) as [|l ls] eqn:E;
      [now elim (split_nonempty LF t)|reflexivity].
  - destruct (split LF t) as [|l ls] eqn:E; reflexivity.
Qed.

(** X13. Only the first five lines count: two messages with the same first
    five lines get the same verdict. *)
Theorem verdict_depends_on_five_lines (id : jsval) (m1 m2 : jsstring) :
  firstn 5 (lines m1) = firstn 5 (lines m2) ->
  commitLint (mkCommit id (Str m1)) = commitLint (mkCommit id (Str m2)).
Proof.
  intros H.
  assert (V : forall k, violated k (mkCommit id (Str m1))
                        = violated k (mkCommit id (Str m2))).
  { intros k. unfold violated, messageText. cbn [msg].
    destruct k.
    - now rewrite !truthy_firstn, H.
    - now rewrite (line_firstn 0 m1), (line_firstn 0 m2), H by lia.
    - now rewrite (guard_firstn 1 m1), (guard_firstn 1 m2),
        (line_firstn 1 m1), (line_firstn 1 m2), H by lia.
    - now rewrite (guard_firstn 2 m1), (guard_firstn 2 m2),
        (line_firstn 2 m1), (line_firstn 2 m2), H by lia.
    - now rewrite (guard_firstn 3 m1), (guard_firstn 3 m2),
        (line_firstn 3 m1), (line_firstn 3 m2), H by lia.
    - now rewrite (guard_firstn 4 m1), (guard_firstn 4 m2),
        (line_firstn 4 m1), (line_firstn 4 m2), H by lia. }
  rewrite !commitLint_firstFailure.
  unfold firstFailure, firstViolation, checks. cbn [find sha].
  now rewrite !V.
Qed.

Lemma verdict_depends_on_five_lines_witness :
  commitLint
    (mkCommit (Str (lit "abc"))
       (Str (text ["fix: a"; ""; "body"; ""; "footer"; "!!"]%string)))
  = commitLint
      (mkCommit (Str (lit "abc"))
         (Str (text ["fix: a"; ""; "body"; ""; "footer"; ""; "more"]%string))).
Proof.
  apply (verdict_depends_on_five_lines (Str (lit "abc"))
           (text ["fix: a"; ""; "body"; ""; "footer"; "!!"]%string)
           (text ["fix: a"; ""; "body"; ""; "footer"; ""; "more"]%string)).
  reflexivity.
Defined.

(** X14. What [headerRegex.test] accepts, exactly: a text that starts with
    one of the eleven type tags, then optionally a scope in parentheses of
    one or more characters that are no line terminators, then [: ] and one
    character that is no line terminator. What follows is not looked at, and
    only the first line is. *)
Theorem headerRegex_accepts_exactly (s : jsstring) :
  (fst (test headerRegex s) = true <-> HeaderForm dot s) /\
  (forall tail, HeaderForm dot s -> fst (test headerRegex (s ++ tail)) = true) /\
  fst (test headerRegex s) = fst (test headerRegex (line 0 s)).
Proof.
  split; [apply header_spec|]. split.
  - intros tail H. apply header_spec. now apply HeaderForm_app.
  - symmetry. apply header_line0.
Qed.

Lemma reportCommitErrors_spec (github_commits : list GitHubCommit) (log : failures) :
  reportCommitErrors github_commits log =
  log ++ definedResults
           (map (fun obj => commitLint (simpleObject obj)) github_commits).
Proof.
  assert (E : commitErrors github_commits
              = map (fun obj => commitLint (simpleObject obj)) github_commits).
  { unfold commitErrors, commits.
    rewrite (Array_map_ignores commitLint), (Array_map_ignores simpleObject).
    apply map_map. }
  unfold reportCommitErrors. rewrite E.
  destruct (existsb defined _) eqn:Ex.
  - apply forEach_fail.
  - now rewrite (none_defined _ Ex), app_nil_r.
Qed.

(** X15. A pull request gets no failure exactly when every one of its
    commits is valid; failures already posted are kept, and at most one is
    added per commit. *)
Theorem no_failure_iff_all_valid
        (github_commits : list GitHubCommit) (log : failures) :
  (reportCommitErrors github_commits log = log <->
   forall obj, In obj github_commits -> commitLint (simpleObject obj) = None) /\
  firstn (length log) (reportCommitErrors github_commits log) = log /\
  length (reportCommitErrors github_commits log)
  <= length log + length github_commits.
Proof.
  rewrite reportCommitErrors_spec. split; [|split].
  - split.
    + intros H obj Hobj.
      assert (D : definedResults
                    (map (fun o => commitLint (simpleObject o)) github_commits)
                  = []).
      { apply (app_inv_head log). now rewrite app_nil_r. }
      unfold definedResults in D. rewrite flat_map_nil_iff in D.
      specialize (D _ (in_map (fun o => commitLint (simpleObject o)) _ _ Hobj)).
      cbv beta in D. now destruct (commitLint (simpleObject obj)).
    + intros H. rewrite <- (app_nil_r log) at 2. f_equal.
      unfold definedResults. apply flat_map_nil_iff.
      intros e He. apply in_map_iff in He. destruct He as (obj & <- & Hobj).
      now rewrite (H obj Hobj).
  - rewrite firstn_app, Nat.sub_diag, firstn_all. cbn [firstn].
    apply app_nil_r.
  - rewrite length_app. unfold definedResults.
    pose proof (flat_map_length_le
                  (fun e : option jsstring =>
                     match e with Some x => [x] | None => [] end)
                  (map (fun obj => commitLint (simpleObject obj)) github_commits))
      as H.
    rewrite length_map in H. apply Nat.add_le_mono_l, H.
    intros [x|]; simpl; lia.
Qed.

End Verdicts.

(** ** The greeting *)

Section Greeting.

(** X16. [start] wraps the name between [getting Start-t, ] and [!]: two
    names give the same greeting only when they are the same name, and
    calling it without a name greets [undefined]. *)
Theorem start_is_injective (a b : jsstring) :
  (start (Str a) = start (Str b) <-> a = b) /\
  length (start (Str a)) = length a + 18 /\
  start Undefined = start (Str (lit "undefined")).
Proof.
  unfold start. split; [|split].
  - split; [|congruence]. intros H.
    apply app_inv_head in H. now apply app_inv_tail in H.
  - cbn [ToString]. rewrite !length_app. simpl. lia.
  - reflexivity.
Qed.

End Greeting.
